(** * Burrows-Wheeler transform and its inversion through a last-first map

    A shallow embedding of [bw_transform.py] and [invert_bwt.py].

    - A Python [str] is a sequence of Unicode code points: a character is
      modelled by its code point ([ord]), a string by the list of them.
      Comparison of characters and of strings is Python's: by code point, and
      lexicographic on strings.
    - A sentinel ([end_char]) is one character.
    - A function that can raise returns a [result]: either the value or the
      exception that the interpreter would raise.  Indices are natural
      numbers: the code indexes with [range], [str.index] and the entries of
      the map, never with a negative number, but for [rotation[-1]] and
      [text[:-1]], which have their own definitions.
    - [list.sort] is a stable sort; a stable insertion sort stands for it.
      Both uses compare with an antisymmetric total order, for which the
      sorted permutation of a list is unique. *)

From Stdlib Require Import NArith ZArith String Ascii.
From stdpp Require Import base numbers option list sorting gmap strings pretty.

Abbreviation char := N (only parsing).
Abbreviation str := (list N) (only parsing).

(** ** String literals *)

Definition ord (a : ascii) : N := N_of_ascii a.

Definition py (s : string) : list N := ord <$> list_ascii_of_string s.

(** ** Exceptions *)

Inductive exception := ValueError | IndexError | KeyError.

Inductive result (A : Type) : Type :=
| Return (a : A)
| Raise (e : exception).
Arguments Return {A} a.
Arguments Raise {A} e.

Definition bind {A B} (m : result A) (k : A → result B) : result B :=
  match m with
  | Return a => k a
  | Raise e => Raise e
  end.

Notation "'let!' x ':=' m 'in' k" := (bind m (λ x, k))
  (at level 10, x name, m at level 100, k at level 200).

(** ** Python primitives *)

(** [l[i]] for a non-negative [i]. *)
Definition getitem {A} (l : list A) (i : nat) : result A :=
  match l !! i with
  | Some a => Return a
  | None => Raise IndexError
  end.

(** [l[i] = a] for a non-negative [i]. *)
Definition setitem {A} (l : list A) (i : nat) (a : A) : result (list A) :=
  if decide (i < length l) then Return (<[i:=a]> l) else Raise IndexError.

(** [l[-1]]. *)
Definition getlast {A} (l : list A) : result A :=
  match last l with
  | Some a => Return a
  | None => Raise IndexError
  end.

(** [s[i:j]] for non-negative [i] and [j]. *)
Definition slice {A} (s : list A) (i j : nat) : list A := take (j - i) (drop i s).

(** [s[:-1]]. *)
Definition but_last {A} (s : list A) : list A := take (length s - 1) s.

(** [s.index(c)] for a one-character [c]. *)
Fixpoint index_from (i : nat) (s : str) (c : char) : result nat :=
  match s with
  | [] => Raise ValueError
  | a :: s' => if decide (a = c) then Return i else index_from (S i) s' c
  end.

Definition index (s : str) (c : char) : result nat := index_from 0 s c.

(** Comparison of strings, [a <= b]. *)
Fixpoint str_le (a b : str) : bool :=
  match a, b with
  | [], _ => true
  | _ :: _, [] => false
  | x :: a', y :: b' =>
      if (x <? y)%N then true
      else if (x =? y)%N then str_le a' b'
      else false
  end.

Definition char_le (a b : char) : bool := (a <=? b)%N.

(** [list.sort] *)
Section list_sort.
Context {A : Type} (le : A → A → bool).

Fixpoint insert_sorted (x : A) (l : list A) : list A :=
  match l with
  | [] => [x]
  | y :: l' => if le x y then x :: y :: l' else y :: insert_sorted x l'
  end.

Fixpoint list_sort (l : list A) : list A :=
  match l with
  | [] => []
  | x :: l' => insert_sorted x (list_sort l')
  end.
End list_sort.

(** ** The global [ALPHABET] *)

Definition chr_range (start count : nat) : list N := N.of_nat <$> seq start count.

Definition ALPHABET : gset N :=
  {[ 32%N ]} ∪ list_to_set (chr_range 48 10)
             ∪ list_to_set (chr_range 65 26)
             ∪ list_to_set (chr_range 97 26).

(** The default value of every [end_char] parameter, ['$']. *)
Definition default_end_char : N := 36%N.

(** ** bw_transform.py *)

Fixpoint last_column (bwt : str) (rotations : list (list N)) : result (list N) :=
  match rotations with
  | [] => Return bwt
  | rotation :: rest =>
      let! c := getlast rotation in
      last_column (bwt ++ [c]) rest
  end.

Definition sorted_rotations_to_bwt (sorted_rotations : list (list N)) : result (list N) :=
  last_column [] sorted_rotations.

Definition sort_rotations (rotations : list (list N)) : list (list N) :=
  list_sort str_le rotations.

Definition make_rotations (text : str) : list (list N) :=
  let n := length text in
  let text2 := text ++ text in
  foldl (λ rotations i, rotations ++ [slice text2 i (i + n)]) [] (seq 0 n).

Definition bw_transform (text : str) (end_char : char) : result (list N) :=
  let text := text ++ [end_char] in
  let rotations := make_rotations text in
  let sorted_rotations := sort_rotations rotations in
  sorted_rotations_to_bwt sorted_rotations.

(** ** invert_bwt.py *)

Definition sort_string (astr : str) : list N := list_sort char_le astr.

(** The dictionary of [build_map]: a character is mapped to the queue of the
    indices where it occurs. *)
Definition enqueue (d : gmap N (list nat)) (c : char) (i : nat) : gmap N (list nat) :=
  match d !! c with
  | None => <[c := [i]]> d
  | Some q => <[c := q ++ [i]]> d
  end.

Fixpoint fill_queues (i : nat) (last : str) (d : gmap N (list nat)) : gmap N (list nat) :=
  match last with
  | [] => d
  | c :: rest => fill_queues (S i) rest (enqueue d c i)
  end.

Fixpoint pop_queues (first : str) (d : gmap N (list nat)) (lf_map : list nat)
  : result (list nat) :=
  match first with
  | [] => Return lf_map
  | c :: rest =>
      match d !! c with
      | None => Raise KeyError
      | Some [] => Raise IndexError
      | Some (i :: q) => pop_queues rest (<[c := q]> d) (lf_map ++ [i])
      end
  end.

Definition build_map (last : str) : result (list nat) :=
  let first := sort_string last in
  let d := fill_queues 0 last ∅ in
  pop_queues first d [].

Fixpoint walk (bwt : str) (lf_map : list nat) (range : list nat) (x : nat)
    (text : list (list N)) : result (list (list N)) :=
  match range with
  | [] => Return text
  | i :: rest =>
      let! x := getitem lf_map x in
      let! c := getitem bwt x in
      let! text := setitem text i [c] in
      walk bwt lf_map rest x text
  end.

Definition text_using_map (bwt : str) (lf_map : list nat) (end_char : char)
  : result (list N) :=
  let text := replicate (length bwt) [] in
  let! x := index bwt end_char in
  let! text := walk bwt lf_map (seq 0 (length bwt)) x text in
  Return (concat text).

(** The call of [text_using_map] passes no [end_char]: the walk starts at the
    default ['$'], whatever [end_char] is. *)
Definition invert_bwt_via_map (bwt : str) (end_char : char) : result (list N) :=
  let! lf_map := build_map bwt in
  let! text := text_using_map bwt lf_map default_end_char in
  Return (but_last text).

(** [validate_bwt] returns a [str] on every path: a message, or the string
    with its one symbol replaced by [end_char].  [line_no] is an [int] or
    [None]; [if line_no:] holds for an [int] other than 0. *)
Definition msg_no_symbols (line_no : option Z) : list N :=
  match line_no with
  | Some z =>
      if (z =? 0)%Z then py "String has no symbols."
      else py "Line no. " ++ py (pretty z) ++ py " has no symbols."
  | None => py "String has no symbols."
  end.

Definition msg_many_symbols (line_no : option Z) : list N :=
  match line_no with
  | Some z =>
      if (z =? 0)%Z then py "String has more than one symbols."
      else py "Line no. " ++ py (pretty z) ++ py " has more than one symbols."
  | None => py "String has more than one symbols."
  end.

Fixpoint symbol_indices (i : nat) (string : str) : list nat :=
  match string with
  | [] => []
  | c :: rest =>
      if decide (c ∈ ALPHABET) then symbol_indices (S i) rest
      else i :: symbol_indices (S i) rest
  end.

Definition validate_bwt (string : str) (line_no : option Z) (end_char : char) : list N :=
  let indices_non := symbol_indices 0 string in
  match indices_non with
  | [] => msg_no_symbols line_no
  | _ :: _ :: _ => msg_many_symbols line_no
  | [i] => slice string 0 i ++ [end_char] ++ drop (S i) string
  end.

(** ** The validation of bw_transform.py *)

(** [validate_text] returns a [str] on every path: a message, or the text. *)
Definition msg_other_characters (line_no : option Z) : list N :=
  match line_no with
  | Some z =>
      if (z =? 0)%Z
      then py "String has characters other than spaces and alphanumeric."
      else py "Line no. " ++ py (pretty z)
           ++ py " has characters other than spaces and alphanumeric."
  | None => py "String has characters other than spaces and alphanumeric."
  end.

Fixpoint count_symbols (count_non : nat) (text : str) : nat :=
  match text with
  | [] => count_non
  | c :: rest =>
      if decide (c ∈ ALPHABET) then count_symbols count_non rest
      else count_symbols (S count_non) rest
  end.

Definition validate_text (text : str) (line_no : option Z) : list N :=
  let count_non := count_symbols 0 text in
  if decide (0 < count_non) then msg_other_characters line_no else text.

(** ** The callers *)

(** [str.strip]: the characters for which [str.isspace] holds, or the
    characters given. *)
Definition isspace (c : N) : bool :=
  ((9 <=? c) && (c <=? 13) || (28 <=? c) && (c <=? 32) || (c =? 133) || (c =? 160)
   || (c =? 5760) || (8192 <=? c) && (c <=? 8202) || (c =? 8232) || (c =? 8233)
   || (c =? 8239) || (c =? 8287) || (c =? 12288))%N.

Fixpoint lstrip (chars : N → bool) (s : str) : list N :=
  match s with
  | [] => []
  | c :: rest => if chars c then lstrip chars rest else s
  end.

Definition rstrip (chars : N → bool) (s : str) : list N :=
  reverse (lstrip chars (reverse s)).

Definition strip (s : str) : list N := rstrip isspace (lstrip isspace s).

(** [s.strip('\n')] *)
Definition strip_newline (s : str) : list N :=
  rstrip (λ c, (c =? 10)%N) (lstrip (λ c, (c =? 10)%N) s).

(** What a caller prints: the [print] that ran, with what it was given. *)
Inductive printed :=
| PrintStr (s : list N)
| PrintHelp
| PrintException (e : exception)
| PrintLineException (counter : nat) (e : exception)
| PrintUnable (counter : nat).

(** The string block of [main] in bw_transform.py, from the value that
    [get_string] returned ([None] or a string). *)
Definition encode_string (string : option (list N)) : list printed :=
  match string with
  | None | Some [] => [PrintStr ([10; 10]%N ++ py "No string provided."); PrintHelp]
  | Some string =>
      let string := strip string in
      let text := validate_text string None in
      if decide (text ≠ string) then [PrintStr text; PrintHelp]
      else
        match bw_transform text default_end_char with
        | Return bwt => [PrintStr bwt]
        | Raise e => [PrintStr [10; 10]%N; PrintException e; PrintHelp]
        end
  end.

(** [authenticate] comes from the module [common]: it is a parameter here, a
    function of a transform, a text and a sentinel that answers or raises.
    The functions of a file start from the lines that the file yields. *)
Section callers.
Context (authenticate : list N → list N → N → result bool).

(** The body of the loop of [encode_file_as_word_list]: the string for the
    output list, and what is printed. *)
Definition encode_line (raw_text : str) (counter : nat) (end_char : char)
  : list N * list printed :=
  let raw_text := strip raw_text in
  let text := validate_text raw_text (Some (Z.of_nat counter)) in
  if decide (text = raw_text) then
    match
      (let! temp_bwt := bw_transform text end_char in
       let! ok := authenticate temp_bwt text end_char in
       Return (temp_bwt, ok))
    with
    | Return (temp_bwt, true) => (temp_bwt, [])
    | Return (_, false) => ([], [PrintUnable counter])
    | Raise e => ([], [PrintLineException counter e])
    end
  else ([], [PrintStr text]).

(** The body of the loop of [decode_file_as_word_list]. *)
Definition decode_line (raw_bwt : str) (counter : nat) (end_char : char)
  : list N * list printed :=
  let raw_bwt := strip_newline raw_bwt in
  let bwt := validate_bwt raw_bwt (Some (Z.of_nat counter)) default_end_char in
  if decide (bwt = raw_bwt) then
    match
      (let! temp_text := invert_bwt_via_map bwt end_char in
       let! ok := authenticate bwt temp_text end_char in
       Return (temp_text, ok))
    with
    | Return (temp_text, true) => (temp_text, [])
    | Return (_, false) => ([], [PrintUnable counter])
    | Raise e => ([], [PrintLineException counter e])
    end
  else ([], [PrintStr bwt]).

(** The loops over the lines of the file, from line [counter] on. *)
Fixpoint lines_loop (line : str → nat → char → list N * list printed)
    (lines : list (list N)) (counter : nat) (end_char : char)
    (output_list : list (list N)) (out : list printed)
  : list (list N) * list printed :=
  match lines with
  | [] => (output_list, out)
  | raw :: rest =>
      let '(text, p) := line raw counter end_char in
      lines_loop line rest (S counter) end_char (output_list ++ [text]) (out ++ p)
  end.

Definition encode_file_as_word_list (lines : list (list N)) (end_char : char)
  : list (list N) * list printed :=
  lines_loop encode_line lines 0 end_char [] [].

Definition decode_file_as_word_list (lines : list (list N)) (end_char : char)
  : list (list N) * list printed :=
  lines_loop decode_line lines 0 end_char [] [].

(** The string block of [main] in invert_bwt.py. *)
Definition decode_string (string : option (list N)) : list printed :=
  match string with
  | None | Some [] => [PrintStr ([10; 10]%N ++ py "No string provided."); PrintHelp]
  | Some string =>
      let bwt := validate_bwt string None default_end_char in
      if decide (bwt ≠ string) then [PrintStr bwt; PrintHelp]
      else
        match
          (let! temp_text := invert_bwt_via_map bwt default_end_char in
           let! ok := authenticate bwt temp_text default_end_char in
           Return (temp_text, ok))
        with
        | Return (temp_text, true) => [PrintStr temp_text]
        | Return (_, false) =>
            [PrintStr (py "The string is not a Burrows-Wheeler Transform of any text.")]
        | Raise e => [PrintStr [10; 10]%N; PrintException e; PrintHelp]
        end
  end.
End callers.

(** ** Notions used by the statements and the proofs *)

(** The relation of a boolean comparison. *)
Definition holds {A} (le : A → A → bool) : relation A := λ x y, le x y = true.

(** Two elements of equal rank for [lek] come in the order [le]. *)
Definition tied {A} (lek le : A → A → bool) (x y : A) : Prop :=
  lek x y = true → lek y x = true → le x y = true.

(** The queue of a character: empty for a character that is no key. *)
Definition queue (d : gmap N (list nat)) (c : N) : list nat := default [] (d !! c).

(** The characters of [last] with their indices, in the order of the
    characters and, for one character, of the indices. *)
Definition by_char (p q : N * nat) : bool := char_le p.1 q.1.

Definition lf_pairs (last : list N) : list (N * nat) :=
  list_sort by_char (zip last (seq 0 (length last))).

(** The pairs of the map: of two pairs with one character, the first comes
    from the smaller index. *)
Definition fifo (p q : N * nat) : Prop := p.1 = q.1 → p.2 < q.2.

(** The rotation [t[i:] + t[:i]], and a rotation by one character to the
    left and to the right. *)
Definition rot (t : list N) (i : nat) : list N := drop i t ++ take i t.

Definition rotl (r : list N) : list N :=
  match r with
  | [] => []
  | a :: w => w ++ [a]
  end.

Definition rotr (r : list N) : list N :=
  match last r with
  | Some c => c :: but_last r
  | None => []
  end.

Definition last_or0 (r : list N) : N := default 0%N (last r).
Definition head_or0 (r : list N) : N := default 0%N (head r).

(** The sorted rotations, the matrix of the transform. *)
Definition matrix (t : list N) : list (list N) := sort_rotations (make_rotations t).

(** The last column of the matrix. *)
Definition last_col (t : list N) : list N := last_or0 <$> matrix t.

Definition by_head (p q : list N * nat) : bool := char_le (head_or0 p.1) (head_or0 q.1).
Definition by_str (p q : list N * nat) : bool := str_le p.1 q.1.

(** Every row moved one character to the right, with the index of its row,
    in the order of the first characters. *)
Definition rot_pairs (t : list N) : list (list N * nat) :=
  list_sort by_head (zip (rotr <$> matrix t) (seq 0 (length t))).

(** The symbols of a string: its characters outside the alphabet. *)
Definition symbols (string : list N) : list N := filter (λ c, c ∉ ALPHABET) string.

Definition occurrences (c : N) (string : list N) : nat :=
  length (filter (λ a, a = c) string).

(** ** Doctests *)

Example default_end_char_dollar : default_end_char = ord "$".
Proof. reflexivity. Qed.

Example doctest_make_rotations :
  make_rotations (py "a$") = [py "a$"; py "$a"].
Proof. reflexivity. Qed.

Example doctest_bw_transform_aardvarks :
  bw_transform (py "3 aardvarks") default_end_char = Return (py "3s$ avrraakd").
Proof. vm_compute. reflexivity. Qed.

Example doctest_sort_string :
  sort_string (py "3s$ avrraakd") = py " $3aaadkrrsv".
Proof. vm_compute. reflexivity. Qed.

Example doctest_build_map :
  build_map (py "ipssm$pissii") = Return [5; 0; 7; 10; 11; 4; 1; 6; 2; 3; 8; 9].
Proof. vm_compute. reflexivity. Qed.

Example doctest_text_using_map :
  text_using_map (py "annb$aa") [4; 0; 5; 6; 3; 1; 2] default_end_char
  = Return (py "banana$").
Proof. vm_compute. reflexivity. Qed.

Example doctest_invert_aardvarks :
  invert_bwt_via_map (py "3s$ avrraakd") default_end_char = Return (py "3 aardvarks").
Proof. vm_compute. reflexivity. Qed.

Example doctest_validate_bwt_line :
  validate_bwt (py "a$bab$s") (Some 10%Z) default_end_char
  = py "Line no. 10 has more than one symbols.".
Proof. vm_compute. reflexivity. Qed.

Example doctest_validate_text :
  validate_text (py "a$bab$s") (Some 10%Z)
  = py "Line no. 10 has characters other than spaces and alphanumeric.".
Proof. vm_compute. reflexivity. Qed.

Example doctest_validate_bwt_ok :
  validate_bwt (py "abab$s") None default_end_char = py "abab$s".
Proof. vm_compute. reflexivity. Qed.

(** * Properties *)

(** ** The monad *)

Lemma bind_Return {A B} (m : result A) (k : A → result B) a :
  m = Return a → bind m k = k a.
Proof. by intros ->. Qed.

Lemma bind_Raise {A B} (m : result A) (k : A → result B) e :
  m = Raise e → bind m k = Raise e.
Proof. by intros ->. Qed.

(** ** Sorting *)

Section list_sort_facts.
Context {A : Type} (le : A → A → bool).
Implicit Types (x y : A) (l : list A).

Lemma insert_sorted_perm x l : insert_sorted le x l ≡ₚ x :: l.
Proof.
  induction l as [|y l IH]; simpl; [done|].
  destruct (le x y); [done|]. rewrite IH. apply Permutation_swap.
Qed.

Lemma list_sort_perm l : list_sort le l ≡ₚ l.
Proof.
  induction l as [|x l IH]; simpl; [done|].
  by rewrite insert_sorted_perm, IH.
Qed.

Lemma list_sort_length l : length (list_sort le l) = length l.
Proof. by rewrite list_sort_perm. Qed.

Lemma elem_of_list_sort x l : x ∈ list_sort le l ↔ x ∈ l.
Proof. by rewrite list_sort_perm. Qed.

(** Stability: the elements with a given key keep their order, whatever
    the key is, as long as the order compares keys. *)
Section stable.
Context (key : A → N).
Hypothesis le_key : ∀ x y, le x y = (key x <=? key y)%N.

Lemma filter_insert_sorted c x l :
  filter (λ y, key y = c) (insert_sorted le x l)
  = filter (λ y, key y = c) (x :: l).
Proof.
  induction l as [|y l IH]; simpl; [done|].
  destruct (le x y) eqn:Hle; [done|].
  rewrite filter_cons, IH, !filter_cons.
  rewrite le_key in Hle. apply N.leb_gt in Hle.
  destruct (decide (key y = c)), (decide (key x = c)); try done; lia.
Qed.

Lemma filter_list_sort c l :
  filter (λ y, key y = c) (list_sort le l) = filter (λ y, key y = c) l.
Proof.
  induction l as [|x l IH]; simpl; [done|].
  by rewrite filter_insert_sorted, !filter_cons, IH.
Qed.
End stable.

Section sorted.
Hypothesis le_total : ∀ x y, le x y = false → le y x = true.
Hypothesis le_trans : ∀ x y z, le x y = true → le y z = true → le x z = true.

Lemma insert_sorted_sorted x l :
  StronglySorted (holds le) l → StronglySorted (holds le) (insert_sorted le x l).
Proof.
  induction 1 as [|y l Hl IH Hy]; simpl.
  { repeat constructor. }
  destruct (le x y) eqn:Hle.
  - constructor; [by constructor|]. constructor; [done|].
    eapply Forall_impl; [exact Hy|]. intros z Hz. by eapply le_trans.
  - constructor; [done|]. rewrite insert_sorted_perm.
    constructor; [|done]. by apply le_total.
Qed.

Lemma list_sort_sorted l : StronglySorted (holds le) (list_sort le l).
Proof.
  induction l as [|x l IH]; simpl; [constructor|].
  by apply insert_sorted_sorted.
Qed.
End sorted.
End list_sort_facts.

(** Sorting commutes with a map that preserves the comparison. *)
Lemma list_sort_fmap {A B} (leA : A → A → bool) (leB : B → B → bool) (g : A → B) l :
  (∀ x y, leB (g x) (g y) = leA x y) →
  g <$> list_sort leA l = list_sort leB (g <$> l).
Proof.
  intros Hg. induction l as [|x l IH]; csimpl; [done|].
  rewrite <-IH. generalize (list_sort leA l). clear IH.
  intros s. induction s as [|y s IH]; csimpl; [done|].
  rewrite Hg. destruct (leA x y); csimpl; [done|]. by rewrite IH.
Qed.

(** A stable sort by a coarse order [lek] sorts by a finer order [le] a list
    whose elements of equal rank already come in the finer order. *)
Section refine.
Context {A : Type} (lek le : A → A → bool).
Hypothesis lek_trans : ∀ x y z, lek x y = true → lek y z = true → lek x z = true.
Hypothesis lek_le : ∀ x y, lek y x = false → le x y = true.
Hypothesis le_lek : ∀ x y, le x y = true → lek x y = true.

Lemma insert_sorted_refine x s :
  StronglySorted (holds le) s → Forall (tied lek le x) s →
  StronglySorted (holds le) (insert_sorted lek x s).
Proof.
  induction 1 as [|y s Hs IH Hy]; simpl; intros Hx.
  { repeat constructor. }
  apply Forall_cons in Hx as [Hxy Hx].
  destruct (lek x y) eqn:Hle.
  - constructor; [by constructor|].
    assert (∀ z, lek x z = true → tied lek le x z → holds le x z) as Hz.
    { intros z Hxz Ht. destruct (lek z x) eqn:Hzx; [by apply Ht|by apply lek_le]. }
    constructor; [by apply Hz|].
    apply Forall_forall. intros z Hin. apply Hz.
    + eapply lek_trans; [done|]. apply le_lek.
      by eapply (proj1 (Forall_forall _ _) Hy).
    + by eapply (proj1 (Forall_forall _ _) Hx).
  - constructor; [by apply IH|]. rewrite insert_sorted_perm.
    constructor; [|done]. by apply lek_le.
Qed.

Lemma list_sort_refine l :
  StronglySorted (tied lek le) l → StronglySorted (holds le) (list_sort lek l).
Proof.
  induction 1 as [|x l Hl IH Hx]; simpl; [constructor|].
  apply insert_sorted_refine; [done|]. by rewrite list_sort_perm.
Qed.
End refine.

(** ** The orders *)

Lemma char_le_total x y : char_le x y = false → char_le y x = true.
Proof. unfold char_le. intros ?%N.leb_gt. apply N.leb_le. lia. Qed.

Lemma char_le_trans x y z : char_le x y = true → char_le y z = true → char_le x z = true.
Proof. unfold char_le. rewrite !N.leb_le. lia. Qed.

Lemma char_le_antisym x y : char_le x y = true → char_le y x = true → x = y.
Proof. unfold char_le. rewrite !N.leb_le. lia. Qed.

Lemma str_le_cons x a y b :
  str_le (x :: a) (y :: b) = true ↔ (x < y)%N ∨ x = y ∧ str_le a b = true.
Proof.
  simpl. destruct (N.ltb_spec x y) as [Hlt|Hge]; [split; [by left|done]|].
  destruct (N.eqb_spec x y) as [->|Hne].
  - split; [by right|]. intros [?|[_ ?]]; [lia|done].
  - split; [done|]. intros [?|[? _]]; [lia|done].
Qed.

Lemma str_le_refl a : str_le a a = true.
Proof. induction a as [|x a IH]; [done|]. apply str_le_cons. by right. Qed.

Lemma str_le_total a b : str_le a b = false → str_le b a = true.
Proof.
  revert b. induction a as [|x a IH]; intros [|y b]; try done.
  intros Hab. apply str_le_cons.
  destruct (N.lt_total x y) as [?|[->|?]]; [|right|by left].
  - assert (str_le (x :: a) (y :: b) = true) by (apply str_le_cons; by left). congruence.
  - split; [done|]. apply IH. destruct (str_le a b) eqn:E; [|done].
    assert (str_le (y :: a) (y :: b) = true) by (apply str_le_cons; by right). congruence.
Qed.

Lemma str_le_trans a b c : str_le a b = true → str_le b c = true → str_le a c = true.
Proof.
  revert b c. induction a as [|x a IH]; intros [|y b] [|z c]; try done.
  rewrite !str_le_cons. intros [?|[-> ?]] [?|[-> ?]]; [left; lia|by left|by left|right].
  split; [done|]. by eapply IH.
Qed.

Lemma str_le_antisym a b : str_le a b = true → str_le b a = true → a = b.
Proof.
  revert b. induction a as [|x a IH]; intros [|y b]; try done.
  rewrite !str_le_cons. intros [?|[-> ?]] [?|[? ?]]; try lia.
  f_equal. by apply IH.
Qed.

Lemma str_le_snoc a b c :
  length a = length b → str_le (a ++ [c]) (b ++ [c]) = str_le a b.
Proof.
  revert b. induction a as [|x a IH]; intros [|y b] Hlen; try done.
  - simpl. by rewrite N.ltb_irrefl, N.eqb_refl.
  - simpl. rewrite IH; [done|]. simpl in Hlen. lia.
Qed.

Global Instance str_le_antisymm : AntiSymm (=) (holds str_le).
Proof. intros a b. apply str_le_antisym. Qed.

Global Instance char_le_antisymm : AntiSymm (=) (holds char_le).
Proof. intros a b. apply char_le_antisym. Qed.

(** Both sorts compare with an antisymmetric total order: the sorted
    permutation of a list is unique, and any correct sort computes it. *)
Lemma sort_rotations_unique (rotations l : list (list N)) :
  StronglySorted (holds str_le) l → l ≡ₚ rotations → l = sort_rotations rotations.
Proof.
  intros Hl Hperm. apply (StronglySorted_unique (holds str_le)); [done| |].
  - apply list_sort_sorted; [apply str_le_total|apply str_le_trans].
  - unfold sort_rotations. by rewrite list_sort_perm.
Qed.

Lemma sort_string_unique (astr l : list N) :
  StronglySorted (holds char_le) l → l ≡ₚ astr → l = sort_string astr.
Proof.
  intros Hl Hperm. apply (StronglySorted_unique (holds char_le)); [done| |].
  - apply list_sort_sorted; [apply char_le_total|apply char_le_trans].
  - unfold sort_string. by rewrite list_sort_perm.
Qed.

(** ** The last-first map *)

Lemma queue_enqueue d c i c' :
  queue (enqueue d c i) c' = if decide (c = c') then queue d c ++ [i] else queue d c'.
Proof.
  unfold queue, enqueue. destruct (d !! c) as [q|] eqn:Hq; case_decide; subst;
    by simplify_map_eq.
Qed.

Lemma queue_fill_queues last i d c :
  queue (fill_queues i last d) c
  = queue d c ++ (filter (λ p, p.1 = c) (zip last (seq i (length last)))).*2.
Proof.
  revert i d. induction last as [|a last IH]; intros i d; csimpl.
  { by rewrite app_nil_r. }
  rewrite IH, queue_enqueue, filter_cons. simpl.
  destruct (decide (a = c)); [|done]. subst. by rewrite <-app_assoc.
Qed.

Lemma pop_queues_spec (S : list (N * nat)) d acc :
  (∀ c, queue d c = (filter (λ p, p.1 = c) S).*2) →
  pop_queues (S.*1) d acc = Return (acc ++ S.*2).
Proof.
  revert d acc. induction S as [|[c i] S IH]; intros d acc Hd; csimpl.
  { by rewrite app_nil_r. }
  pose proof (Hd c) as Hc. rewrite filter_cons in Hc. simpl in Hc.
  rewrite decide_True in Hc by done. unfold queue in Hc.
  destruct (d !! c) as [[|j q]|] eqn:Hq; simplify_eq/=.
  rewrite IH; [by rewrite <-app_assoc|].
  intros c'. unfold queue. destruct (decide (c = c')); subst; simplify_map_eq; [done|].
  specialize (Hd c'). rewrite filter_cons in Hd. simpl in Hd.
  by rewrite decide_False in Hd by done.
Qed.

Lemma sort_string_lf_pairs last : sort_string last = (lf_pairs last).*1.
Proof.
  unfold lf_pairs, sort_string.
  rewrite (list_sort_fmap by_char char_le fst) by done.
  by rewrite fst_zip by (rewrite length_seq; lia).
Qed.

Lemma build_map_spec last : build_map last = Return ((lf_pairs last).*2).
Proof.
  unfold build_map. rewrite sort_string_lf_pairs.
  apply (pop_queues_spec _ _ []). intros c.
  rewrite queue_fill_queues. unfold queue. rewrite lookup_empty. simpl.
  unfold lf_pairs. by rewrite (filter_list_sort by_char fst).
Qed.

Lemma lf_pairs_perm last : (lf_pairs last).*2 ≡ₚ seq 0 (length last).
Proof.
  unfold lf_pairs. rewrite list_sort_perm.
  by rewrite snd_zip by (rewrite length_seq; lia).
Qed.

(** ** Rotations *)

Lemma foldl_snoc {A B} (f : B → A) (l : list B) (acc : list A) :
  foldl (λ acc i, acc ++ [f i]) acc l = acc ++ (f <$> l).
Proof.
  revert acc. induction l as [|i l IH]; intros acc; csimpl.
  - by rewrite app_nil_r.
  - by rewrite IH, <-app_assoc.
Qed.

Lemma slice_double (t : list N) i :
  i ≤ length t → slice (t ++ t) i (i + length t) = rot t i.
Proof.
  intros Hi. unfold slice, rot.
  replace (i + length t - i) with (length t) by lia.
  rewrite drop_app_le by done. rewrite take_app, length_drop.
  rewrite (take_ge (drop i t)) by (rewrite length_drop; lia).
  do 2 f_equal. lia.
Qed.

Lemma make_rotations_spec t : make_rotations t = rot t <$> seq 0 (length t).
Proof.
  unfold make_rotations.
  rewrite (foldl_snoc (λ i, slice (t ++ t) i (i + length t))). simpl.
  apply list_fmap_ext. intros i j [-> Hj]%lookup_seq. apply slice_double. lia.
Qed.

Lemma length_rot t i : length (rot t i) = length t.
Proof.
  unfold rot. rewrite length_app, length_drop, length_take. lia.
Qed.

Lemma rot_0 t : rot t 0 = t.
Proof. unfold rot. by rewrite drop_0, take_0, app_nil_r. Qed.

Lemma rot_all t : rot t (length t) = t.
Proof. unfold rot. by rewrite drop_all, firstn_all. Qed.

Lemma rotl_rot t i : i < length t → rotl (rot t i) = rot t (S i).
Proof.
  intros Hi. destruct (lookup_lt_is_Some_2 t i Hi) as [a Ha].
  unfold rot. rewrite (drop_S _ _ _ Ha), (take_S_r _ _ _ Ha). simpl.
  by rewrite <-app_assoc.
Qed.

Lemma last_rot_S t i a : t !! i = Some a → last (rot t (S i)) = Some a.
Proof.
  intros Ha. unfold rot. rewrite (take_S_r _ _ _ Ha), app_assoc. apply last_snoc.
Qed.

Lemma but_last_snoc {A} (w : list A) c : but_last (w ++ [c]) = w.
Proof.
  unfold but_last. rewrite length_app. simpl.
  replace (length w + 1 - 1) with (length w) by lia. apply take_app_length.
Qed.

Lemma rotr_snoc w c : rotr (w ++ [c]) = c :: w.
Proof. unfold rotr. by rewrite last_snoc, but_last_snoc. Qed.

Lemma rotr_rotl r : rotr (rotl r) = r.
Proof. destruct r as [|a w]; [done|]. apply rotr_snoc. Qed.

Lemma rotl_rotr r : rotl (rotr r) = r.
Proof.
  destruct (last r) as [c|] eqn:Hr.
  - apply last_Some in Hr as [w ->]. by rewrite rotr_snoc.
  - apply last_None in Hr as ->. done.
Qed.

Lemma head_rotr r : head_or0 (rotr r) = last_or0 r.
Proof. unfold head_or0, last_or0, rotr. by destruct (last r). Qed.

Lemma rotr_mono r r' :
  length r = length r' → last_or0 r = last_or0 r' →
  str_le r r' = true → str_le (rotr r) (rotr r') = true.
Proof.
  intros Hlen Hlast Hle.
  destruct (last r) as [c|] eqn:Hr, (last r') as [c'|] eqn:Hr'.
  - apply last_Some in Hr as [w ->]. apply last_Some in Hr' as [w' ->].
    unfold last_or0 in Hlast. rewrite !last_snoc in Hlast. simpl in Hlast. subst c'.
    rewrite !length_app in Hlen. simpl in Hlen.
    rewrite str_le_snoc in Hle by lia.
    rewrite !rotr_snoc. apply str_le_cons. by right.
  - apply last_None in Hr' as ->. by destruct r.
  - apply last_None in Hr as ->. by destruct r'.
  - apply last_None in Hr as ->. done.
Qed.

Lemma rotl_make_rotations t : rotl <$> make_rotations t ≡ₚ make_rotations t.
Proof.
  rewrite make_rotations_spec. destruct (length t) as [|m] eqn:Hn; [done|].
  assert (rotl <$> (rot t <$> seq 0 (S m)) = rot t <$> seq 1 (S m)) as ->.
  { rewrite <-fmap_S_seq, <-!list_fmap_compose.
    apply list_fmap_ext. intros i j [-> Hj]%lookup_seq. simpl.
    apply rotl_rot. lia. }
  rewrite seq_S, fmap_app. csimpl. rewrite rot_0.
  rewrite <-Hn, rot_all. symmetry. apply Permutation_cons_append.
Qed.

Lemma rotr_make_rotations t : rotr <$> make_rotations t ≡ₚ make_rotations t.
Proof.
  rewrite <-(rotl_make_rotations t) at 1.
  assert (rotr <$> (rotl <$> make_rotations t) = make_rotations t) as ->; [|done].
  rewrite <-list_fmap_compose. rewrite <-(list_fmap_id (make_rotations t)) at 2.
  apply list_fmap_ext. intros i r _. apply rotr_rotl.
Qed.

(** ** The sorted rotations and their columns *)

Lemma by_head_trans p q r : by_head p q = true → by_head q r = true → by_head p r = true.
Proof. apply char_le_trans. Qed.

Lemma by_head_by_str p q : by_head q p = false → by_str p q = true.
Proof.
  destruct p as [[|x a] i], q as [[|y b] j]; unfold by_head, by_str, head_or0, char_le;
    simpl; try done.
  - intros ?%N.leb_gt. lia.
  - intros ?%N.leb_gt. by destruct (N.ltb_spec x y); [|lia].
Qed.

Lemma by_str_by_head p q : by_str p q = true → by_head p q = true.
Proof.
  destruct p as [[|x a] i], q as [[|y b] j]; unfold by_head, by_str, head_or0, char_le;
    simpl fst; try done.
  - intros _. apply N.leb_le. simpl. lia.
  - intros [?|[-> _]]%str_le_cons; apply N.leb_le; simpl; lia.
Qed.

Lemma last_column_spec acc rs :
  Forall (λ r, r ≠ []) rs → last_column acc rs = Return (acc ++ (last_or0 <$> rs)).
Proof.
  intros Hrs. revert acc. induction Hrs as [|r rs Hr _ IH]; intros acc; csimpl.
  { by rewrite app_nil_r. }
  unfold getlast, last_or0. apply last_is_Some in Hr as [c ->]. simpl.
  by rewrite IH, <-app_assoc.
Qed.

Lemma zip_rotr_tied n rows k :
  Forall (λ r, length r = n) rows → StronglySorted (holds str_le) rows →
  StronglySorted (tied by_head by_str) (zip (rotr <$> rows) (seq k (length rows))).
Proof.
  intros Hn Hs. revert k. induction Hs as [|r rows Hs IH Hr]; intros k; csimpl.
  { constructor. }
  apply Forall_cons in Hn as [Hlen Hn]. constructor; [by apply IH|].
  apply Forall_forall. intros [r2 j] Hin.
  apply elem_of_zip_l, list_elem_of_fmap in Hin as (r' & -> & Hr').
  intros H1 H2. unfold by_str. simpl.
  unfold by_head in H1, H2. simpl in H1, H2. rewrite !head_rotr in H1, H2.
  apply rotr_mono.
  - rewrite Hlen. symmetry. by eapply (proj1 (Forall_forall _ _) Hn).
  - by apply char_le_antisym.
  - by eapply (proj1 (Forall_forall _ _) Hr).
Qed.

Section matrix.
Context (t : list N).

Lemma matrix_perm : matrix t ≡ₚ make_rotations t.
Proof. apply list_sort_perm. Qed.

Lemma matrix_sorted : StronglySorted (holds str_le) (matrix t).
Proof. apply list_sort_sorted; [apply str_le_total|apply str_le_trans]. Qed.

Lemma elem_of_matrix r : r ∈ matrix t ↔ ∃ i, i < length t ∧ r = rot t i.
Proof.
  rewrite matrix_perm, make_rotations_spec, list_elem_of_fmap.
  setoid_rewrite elem_of_seq. split.
  - intros (i & -> & _ & ?). exists i. split; [lia|done].
  - intros (i & ? & ->). exists i. split; [done|lia].
Qed.

Lemma matrix_lengths : Forall (λ r, length r = length t) (matrix t).
Proof.
  apply Forall_forall. intros r (i & _ & ->)%elem_of_matrix. apply length_rot.
Qed.

Lemma length_matrix : length (matrix t) = length t.
Proof.
  rewrite matrix_perm, make_rotations_spec. by rewrite length_fmap, length_seq.
Qed.

Lemma length_last_col : length (last_col t) = length t.
Proof. unfold last_col. by rewrite length_fmap, length_matrix. Qed.

Lemma rot_pairs_perm :
  rot_pairs t ≡ₚ zip (rotr <$> matrix t) (seq 0 (length t)).
Proof. apply list_sort_perm. Qed.

Lemma rot_pairs_fst : (rot_pairs t).*1 = matrix t.
Proof.
  apply (StronglySorted_unique (holds str_le)).
  - apply (StronglySorted_fmap fst (holds by_str)); [done|].
    apply list_sort_refine.
    + apply by_head_trans.
    + apply by_head_by_str.
    + apply by_str_by_head.
    + rewrite <-length_matrix. apply (zip_rotr_tied (length t)).
      * apply matrix_lengths.
      * apply matrix_sorted.
  - apply matrix_sorted.
  - rewrite rot_pairs_perm.
    rewrite fst_zip by (rewrite length_fmap, length_seq, length_matrix; lia).
    rewrite matrix_perm at 2. rewrite <-rotr_make_rotations.
    by rewrite matrix_perm.
Qed.

Lemma rot_pairs_lf : prod_map head_or0 id <$> rot_pairs t = lf_pairs (last_col t).
Proof.
  unfold rot_pairs, lf_pairs.
  rewrite (list_sort_fmap by_head by_char) by done.
  f_equal. rewrite length_last_col. unfold last_col.
  generalize (matrix t) (seq 0 (length t)). intros rs.
  induction rs as [|r rs IH]; intros [|i ks]; csimpl; try done.
  by rewrite IH, head_rotr.
Qed.

Lemma rot_pairs_elem p :
  p ∈ rot_pairs t → ∃ r, matrix t !! p.2 = Some r ∧ p.1 = rotr r.
Proof.
  rewrite rot_pairs_perm. intros (j & r' & i & -> & Hr' & Hi)%elem_of_lookup_zip_with.
  apply lookup_seq in Hi as [-> _]. simpl.
  rewrite list_lookup_fmap in Hr'.
  destruct (matrix t !! j) as [r|]; simplify_eq/=. eauto.
Qed.

(** The map leads from a row to the row one character to the left. *)
Lemma lf_step lf_map j r :
  build_map (last_col t) = Return lf_map → matrix t !! j = Some r →
  ∃ i, lf_map !! j = Some i ∧ matrix t !! i = Some (rotl r).
Proof.
  rewrite build_map_spec, <-rot_pairs_lf, <-rot_pairs_fst. intros [= <-] Hj.
  rewrite list_lookup_fmap in Hj.
  destruct (rot_pairs t !! j) as [[r' i]|] eqn:Hp; simplify_eq/=.
  exists i. split.
  - by rewrite <-list_fmap_compose, list_lookup_fmap, Hp.
  - apply list_elem_of_lookup_2, rot_pairs_elem in Hp as (r0 & Hr0 & Hr).
    simpl in *. subst r. by rewrite rot_pairs_fst, rotl_rotr.
Qed.
End matrix.

(** ** The forward transform *)

Lemma bw_transform_spec T e : bw_transform T e = Return (last_col (T ++ [e])).
Proof.
  unfold bw_transform, sorted_rotations_to_bwt. rewrite last_column_spec; [done|].
  eapply Forall_impl; [apply (matrix_lengths (T ++ [e]))|].
  intros r Hr ->. rewrite length_app in Hr. simpl in Hr. lia.
Qed.

(** ** The walk *)

Lemma index_from_elem s c i :
  c ∈ s → ∃ x, index_from i s c = Return (i + x) ∧ s !! x = Some c.
Proof.
  revert i. induction s as [|a s IH]; intros i Hc; [by apply elem_of_nil in Hc|].
  simpl. destruct (decide (a = c)) as [->|Hne].
  { exists 0. split; [f_equal; lia|done]. }
  apply elem_of_cons in Hc as [->|Hc]; [done|].
  destruct (IH (S i) Hc) as (x & -> & Hx). exists (S x). split; [f_equal; lia|done].
Qed.

Lemma index_elem s c : c ∈ s → ∃ x, index s c = Return x ∧ s !! x = Some c.
Proof. intros Hc. apply (index_from_elem s c 0 Hc). Qed.

Lemma index_from_absent s c i : c ∉ s → index_from i s c = Raise ValueError.
Proof.
  revert i. induction s as [|a s IH]; intros i Hc; [done|].
  apply not_elem_of_cons in Hc as [Hne Hc]. simpl.
  rewrite decide_False by done. by apply IH.
Qed.

Lemma index_absent s c : c ∉ s → index s c = Raise ValueError.
Proof. apply index_from_absent. Qed.

Lemma concat_singletons (s : list N) : concat ((λ c, [c]) <$> s) = s.
Proof. induction s as [|c s IH]; csimpl; [done|]. by rewrite IH. Qed.

Section inversion.
Context (T : list N) (e : N).
Hypothesis sentinel_fresh : e ∉ T.

Local Abbreviation t := (T ++ [e]).

Lemma length_text : length t = S (length T).
Proof. rewrite length_app. simpl. lia. Qed.

Lemma text_in_matrix : t ∈ matrix t.
Proof.
  apply elem_of_matrix. exists 0. rewrite rot_0, length_text. split; [lia|done].
Qed.

Lemma sentinel_row r : r ∈ matrix t → last_or0 r = e → r = t.
Proof.
  intros (i & Hi & ->)%elem_of_matrix Hlast.
  destruct i as [|i]; [apply rot_0|].
  rewrite length_text in Hi.
  destruct (lookup_lt_is_Some_2 T i) as [a Ha]; [lia|].
  assert (t !! i = Some a) as Hti by (by apply lookup_app_l_Some).
  unfold last_or0 in Hlast. rewrite (last_rot_S _ _ _ Hti) in Hlast. simpl in Hlast.
  subst a. by apply list_elem_of_lookup_2 in Ha.
Qed.

Lemma walk_spec lf_map k i x text :
  build_map (last_col t) = Return lf_map →
  i + k = length t → length text = length t →
  matrix t !! x = Some (rot t i) →
  walk (last_col t) lf_map (seq i k) x text
  = Return (take i text ++ ((λ c, [c]) <$> drop i t)).
Proof.
  intros Hlf. revert i x text. induction k as [|k IH]; intros i x text Hik Hlen Hx.
  { simpl. rewrite Nat.add_0_r in Hik. subst i.
    by rewrite drop_all, take_ge, app_nil_r by lia. }
  destruct (lf_step t lf_map x _ Hlf Hx) as (x' & Hx' & Hrow).
  rewrite rotl_rot in Hrow by lia.
  destruct (lookup_lt_is_Some_2 t i) as [a Ha]; [lia|].
  assert (last_col t !! x' = Some a) as Hc.
  { unfold last_col. rewrite list_lookup_fmap, Hrow. simpl.
    unfold last_or0. by rewrite (last_rot_S _ _ _ Ha). }
  simpl. unfold getitem. rewrite Hx'. simpl. rewrite Hc. simpl.
  unfold setitem. rewrite decide_True by lia. simpl.
  rewrite IH; [|lia|by rewrite length_insert|done].
  f_equal. rewrite (drop_S _ _ _ Ha). csimpl.
  rewrite (take_S_r _ i [a]).
  - by rewrite take_insert_ge, <-app_assoc by lia.
  - apply list_lookup_insert_eq. lia.
Qed.

Lemma text_using_map_spec lf_map :
  build_map (last_col t) = Return lf_map →
  text_using_map (last_col t) lf_map e = Return t.
Proof.
  intros Hlf. unfold text_using_map.
  assert (e ∈ last_col t) as He.
  { unfold last_col. apply list_elem_of_fmap. exists t. split; [|apply text_in_matrix].
    unfold last_or0. by rewrite last_snoc. }
  destruct (index_elem _ _ He) as (x & Hidx & Hx). rewrite Hidx.
  simpl. unfold last_col in Hx. rewrite list_lookup_fmap in Hx.
  destruct (matrix t !! x) as [r|] eqn:Hr; [|done]. simpl in Hx.
  assert (r = t) as ->.
  { apply sentinel_row; [by eapply list_elem_of_lookup_2|congruence]. }
  rewrite length_last_col.
  rewrite (walk_spec lf_map (length t) 0 x); [|done|lia|by rewrite length_replicate|].
  - simpl. by rewrite drop_0, concat_singletons.
  - by rewrite rot_0.
Qed.
End inversion.

(** The inversion of a transform made with the default sentinel gives the
    text back, whatever [end_char] the inversion is given. *)
Lemma invert_bw_transform T s :
  default_end_char ∉ T →
  bind (bw_transform T default_end_char) (λ bwt, invert_bwt_via_map bwt s) = Return T.
Proof.
  intros Hfresh. rewrite bw_transform_spec. simpl. unfold invert_bwt_via_map.
  rewrite build_map_spec. simpl.
  rewrite (text_using_map_spec T default_end_char Hfresh) by apply build_map_spec.
  simpl. by rewrite but_last_snoc.
Qed.

(** ** The alphabet *)

Lemma elem_of_chr_range c start count :
  c ∈ chr_range start count
  ↔ (N.of_nat start ≤ c)%N ∧ (c < N.of_nat (start + count))%N.
Proof.
  unfold chr_range. rewrite list_elem_of_fmap. setoid_rewrite elem_of_seq. split.
  - intros (i & -> & ? & ?). lia.
  - intros [? ?]. exists (N.to_nat c). rewrite N2Nat.id. split; [done|lia].
Qed.

Lemma elem_of_ALPHABET c :
  c ∈ ALPHABET
  ↔ c = 32%N ∨ (48 ≤ c < 58)%N ∨ (65 ≤ c < 91)%N ∨ (97 ≤ c < 123)%N.
Proof.
  unfold ALPHABET.
  rewrite !elem_of_union, !elem_of_list_to_set, !elem_of_chr_range, elem_of_singleton.
  simpl. lia.
Qed.

Lemma sentinel_not_in_ALPHABET : default_end_char ∉ ALPHABET.
Proof. rewrite elem_of_ALPHABET. unfold default_end_char. lia. Qed.

(** ** Validation of the input of the inversion *)

Lemma length_symbol_indices i string :
  length (symbol_indices i string) = length (symbols string).
Proof.
  revert i. unfold symbols. induction string as [|c s IH]; intros i; [done|].
  simpl. rewrite filter_cons.
  destruct (decide (c ∈ ALPHABET)), (decide (c ∉ ALPHABET)); try done; simpl; by rewrite IH.
Qed.

Lemma occurrences_le_symbols c string :
  c ∉ ALPHABET → occurrences c string ≤ length (symbols string).
Proof.
  intros Hc. unfold occurrences, symbols.
  induction string as [|a s IH]; [done|]. rewrite !filter_cons.
  destruct (decide (a = c)) as [->|?]; [rewrite decide_True by done; simpl; lia|].
  destruct (decide (a ∉ ALPHABET)); simpl; lia.
Qed.

Lemma validate_bwt_no_symbols string line_no end_char :
  length (symbols string) = 0 →
  validate_bwt string line_no end_char = msg_no_symbols line_no.
Proof.
  rewrite <-(length_symbol_indices 0). unfold validate_bwt.
  by destruct (symbol_indices 0 string).
Qed.

Lemma validate_bwt_many_symbols string line_no end_char :
  1 < length (symbols string) →
  validate_bwt string line_no end_char = msg_many_symbols line_no.
Proof.
  rewrite <-(length_symbol_indices 0). unfold validate_bwt.
  destruct (symbol_indices 0 string) as [|? [|? ?]]; simpl; [lia|lia|done].
Qed.

(** One symbol: it is replaced. *)
Lemma symbol_indices_one i0 (before after : list N) c :
  Forall (λ a, a ∈ ALPHABET) before → Forall (λ a, a ∈ ALPHABET) after →
  c ∉ ALPHABET →
  symbol_indices i0 (before ++ c :: after) = [i0 + length before].
Proof.
  intros Hb Ha Hc. revert i0. induction Hb as [|b before Hbin _ IH]; intros i0; simpl.
  - rewrite decide_False by done. f_equal; [lia|].
    clear Hc. generalize (S i0).
    induction Ha as [|a after Hain _ IH]; intros j; simpl; [done|].
    by rewrite decide_True.
  - rewrite decide_True by done. rewrite IH. f_equal. lia.
Qed.

Lemma validate_bwt_one_symbol (before after : list N) c line_no end_char :
  Forall (λ a, a ∈ ALPHABET) before → Forall (λ a, a ∈ ALPHABET) after →
  c ∉ ALPHABET →
  validate_bwt (before ++ c :: after) line_no end_char = before ++ end_char :: after.
Proof.
  intros Hb Ha Hc. unfold validate_bwt.
  rewrite (symbol_indices_one 0) by done. simpl. unfold slice.
  rewrite drop_0, Nat.sub_0_r, take_app_length. f_equal.
  change (c :: after) with ([c] ++ after). rewrite app_assoc.
  by rewrite drop_app_length' by (rewrite length_app; simpl; lia).
Qed.

(** ** The inversion on an arbitrary string *)

Lemma elem_of_last_col t c : t ≠ [] → c ∈ last_col t → c ∈ t.
Proof.
  intros Ht. unfold last_col.
  intros (r & -> & (i & Hi & ->)%elem_of_matrix)%list_elem_of_fmap.
  unfold last_or0. destruct (last (rot t i)) as [a|] eqn:Hlast; simpl.
  - apply last_Some_elem_of in Hlast. unfold rot in Hlast.
    apply elem_of_app in Hlast as [Hin|Hin].
    + by eapply subseteq_drop.
    + by eapply subseteq_take.
  - apply last_None in Hlast. apply (f_equal length) in Hlast.
    rewrite length_rot in Hlast. simpl in Hlast. lia.
Qed.

(** Without the default sentinel the walk has no start. *)
Lemma invert_without_default_sentinel B s :
  default_end_char ∉ B → invert_bwt_via_map B s = Raise ValueError.
Proof.
  intros HB. unfold invert_bwt_via_map, text_using_map.
  rewrite build_map_spec. simpl. by rewrite index_absent.
Qed.

(** With it, a permutation for a map keeps every index in range. *)
Lemma walk_total bwt lf_map k i x text :
  lf_map ≡ₚ seq 0 (length bwt) → length text = length bwt →
  x < length bwt → i + k ≤ length bwt →
  ∃ cs, length cs = k
    ∧ walk bwt lf_map (seq i k) x text
      = Return (take i text ++ ((λ c, [c]) <$> cs) ++ drop (i + k) text).
Proof.
  intros Hperm. revert i x text. induction k as [|k IH]; intros i x text Hlen Hx Hik.
  { exists []. split; [done|]. simpl. by rewrite Nat.add_0_r, take_drop. }
  destruct (lookup_lt_is_Some_2 lf_map x) as [x' Hx'].
  { by rewrite Hperm, length_seq. }
  assert (x' < length bwt) as Hlt.
  { apply list_elem_of_lookup_2 in Hx'. rewrite Hperm in Hx'.
    apply elem_of_seq in Hx'. lia. }
  destruct (lookup_lt_is_Some_2 bwt x' Hlt) as [c Hc].
  destruct (IH (S i) x' (<[i:=[c]]> text)) as (cs & Hcs & Hwalk);
    [by rewrite length_insert|done|lia|].
  exists (c :: cs). split; [simpl; lia|].
  simpl. unfold getitem. rewrite Hx'. simpl. rewrite Hc. simpl.
  unfold setitem. rewrite decide_True by lia. simpl. rewrite Hwalk. f_equal.
  rewrite (take_S_r _ i [c]) by (apply list_lookup_insert_eq; lia).
  rewrite take_insert_ge, drop_insert_lt by lia. csimpl.
  rewrite <-app_assoc. by replace (i + S k) with (S (i + k)) by lia.
Qed.

Lemma invert_with_default_sentinel B s :
  default_end_char ∈ B →
  ∃ text, invert_bwt_via_map B s = Return text ∧ length text = length B - 1.
Proof.
  intros HB. unfold invert_bwt_via_map, text_using_map.
  rewrite build_map_spec. simpl.
  destruct (index_elem _ _ HB) as (x & -> & Hx). simpl.
  apply lookup_lt_Some in Hx.
  destruct (walk_total B (lf_pairs B).*2 (length B) 0 x (replicate (length B) []))
    as (cs & Hcs & ->); [apply lf_pairs_perm|by rewrite length_replicate|done|lia|].
  simpl. eexists. split; [done|].
  rewrite drop_ge by (rewrite length_replicate; lia).
  rewrite app_nil_r, concat_singletons. unfold but_last.
  rewrite length_take. lia.
Qed.

(** ** The place of a character in a sorted string *)

Lemma sorted_lookup_smaller (l : list N) c :
  StronglySorted (holds char_le) l → c ∈ l →
  l !! length (filter (λ a, (a < c)%N) l) = Some c.
Proof.
  induction 1 as [|a l Hl IH Ha]; intros Hc; [by apply elem_of_nil in Hc|].
  rewrite filter_cons. destruct (decide (a < c)%N) as [Hlt|Hge]; simpl.
  - apply IH. apply elem_of_cons in Hc as [->|Hc]; [lia|done].
  - assert (a = c) as ->.
    { apply elem_of_cons in Hc as [->|Hc]; [done|].
      apply (proj1 (Forall_forall _ _) Ha) in Hc. unfold holds, char_le in Hc.
      apply N.leb_le in Hc. lia. }
    assert (filter (λ a, (a < c)%N) l = []) as ->; [|done].
    clear -Ha. induction Ha as [|b l Hb _ IH]; [done|].
    rewrite filter_cons, decide_False; [done|].
    unfold holds, char_le in Hb. apply N.leb_le in Hb. lia.
Qed.

Lemma sort_string_lookup B c :
  c ∈ B → sort_string B !! length (filter (λ a, (a < c)%N) B) = Some c.
Proof.
  intros Hc. unfold sort_string.
  assert (length (filter (λ a, (a < c)%N) B)
          = length (filter (λ a, (a < c)%N) (list_sort char_le B))) as ->.
  { by rewrite list_sort_perm. }
  apply sorted_lookup_smaller.
  - apply list_sort_sorted; [apply char_le_total|apply char_le_trans].
  - by apply elem_of_list_sort.
Qed.

Lemma bw_transform_length T s :
  ∃ bwt, bw_transform T s = Return bwt ∧ length bwt = length T + 1.
Proof.
  exists (last_col (T ++ [s])). split; [apply bw_transform_spec|].
  by rewrite length_last_col, length_app.
Qed.

(** A transform made with another sentinel holds no ['$'] to start from. *)
Lemma invert_bw_transform_other_sentinel T s :
  default_end_char ∉ T → s ≠ default_end_char →
  bind (bw_transform T s) (λ bwt, invert_bwt_via_map bwt s) = Raise ValueError.
Proof.
  intros HT Hs. rewrite bw_transform_spec. simpl.
  apply invert_without_default_sentinel.
  intros Hin%elem_of_last_col; [|by destruct T].
  apply elem_of_app in Hin as [?|Hin]; [done|].
  apply list_elem_of_singleton in Hin. congruence.
Qed.

(** * The claims *)

(** C1.  Round-trip law, for every sentinel [s] that does not occur in the
    text: [invert_bwt_via_map(bw_transform(T, s), s) == T].  The code breaks
    it for a sentinel other than ['$']: for the text ["a"] and the sentinel
    ['#'] the transform is ["a#"], and its inversion raises [ValueError],
    since [invert_bwt_via_map] calls [text_using_map] without its
    [end_char] ([invert_bw_transform_other_sentinel] is the general case). *)
Theorem C1_round_trip_other_sentinel_raises :
  Forall (λ c, c ∈ ALPHABET) (py "a")
  ∧ (ord "#" ∉ py "a")
  ∧ bw_transform (py "a") (ord "#") = Return (py "a#")
  ∧ invert_bwt_via_map (py "a#") (ord "#") = Raise ValueError.
Proof.
  split; [by apply (bool_decide_unpack _); vm_compute|].
  split; [by apply (bool_decide_unpack _); vm_compute|].
  split; vm_compute; reflexivity.
Qed.

(** C2, as stated, fails: the space belongs to the permitted alphabet and
    comes before ['$'] in the order of both sorts, and [sort_string] puts it,
    not the sentinel, at position 0 of [" $"].  The amended claim is proved
    at the end. *)
Lemma C2_counterexample_space_first :
  32%N ∈ ALPHABET
  ∧ char_le default_end_char 32 = false
  ∧ str_le [default_end_char] [32%N] = false
  ∧ default_end_char ∈ py " $"
  ∧ sort_string (py " $") !! 0 = Some 32%N.
Proof.
  split; [by apply (bool_decide_unpack _); vm_compute|].
  split; [done|]. split; [done|].
  split; [by apply (bool_decide_unpack _); vm_compute|done].
Qed.

(** C3.  For a sentinel [s] that does not occur in [B], the inversion
    [invert_bwt_via_map(B, s)] fails with an explicit error.  The code looks
    for ['$'] instead of [s]: ['#'] does not occur in ["a$"], and the call
    with the sentinel ['#'] returns ["a"]
    ([invert_without_default_sentinel]: it is the absence of ['$'] that
    raises). *)
Theorem C3_absent_sentinel_returns :
  (ord "#" ∉ py "a$")
  ∧ invert_bwt_via_map (py "a$") (ord "#") = Return (py "a").
Proof.
  split; [by apply (bool_decide_unpack _); vm_compute|].
  vm_compute. reflexivity.
Qed.

(** C4.  Permutation invariant: for every string [B] of length [n],
    [build_map(B)] returns a tuple of length [n] in which every index of
    [0, n) appears exactly once, and nothing else does. *)
Theorem C4_build_map_bijection (B : list N) :
  ∃ lf_map,
    build_map B = Return lf_map
    ∧ length lf_map = length B
    ∧ lf_map ≡ₚ seq 0 (length B)
    ∧ NoDup lf_map
    ∧ ∀ i, i ∈ lf_map ↔ i < length B.
Proof.
  exists (lf_pairs B).*2. pose proof (lf_pairs_perm B) as Hperm.
  split; [apply build_map_spec|].
  split; [by rewrite Hperm, length_seq|].
  split; [done|].
  split; [rewrite Hperm; apply NoDup_seq|].
  intros i. rewrite Hperm, elem_of_seq. lia.
Qed.

(** C5.  Length invariant: [len(bw_transform(T, s)) == len(T) + 1], and
    [len(invert_bwt_via_map(B, s)) == len(B) - 1] for a string [B] in which
    the sentinel [s] occurs once.  The first half holds
    ([bw_transform_length]); the second holds when ['$'] occurs in [B]
    ([invert_with_default_sentinel]) and not for another sentinel: ['#']
    occurs once in ["a#"], the transform of ["a"] with ['#'], and the
    inversion raises [ValueError] instead of returning one character. *)
Theorem C5_invert_other_sentinel_raises :
  bw_transform (py "a") (ord "#") = Return (py "a#")
  ∧ occurrences (ord "#") (py "a#") = 1
  ∧ invert_bwt_via_map (py "a#") (ord "#") = Raise ValueError.
Proof. repeat split; vm_compute; reflexivity. Qed.

(** C6.  Rotation enumerator: for every string [t] of length [n],
    [make_rotations(t)] has exactly [n] elements, the [i]-th being
    [t[i:] + t[:i]], and element 0 being [t] itself. *)
Theorem C6_make_rotations_contract (t : list N) :
  length (make_rotations t) = length t
  ∧ ∀ i, i < length t →
      make_rotations t !! i = Some (drop i t ++ take i t)
      ∧ make_rotations t !! 0 = Some t.
Proof.
  rewrite make_rotations_spec. split; [by rewrite length_fmap, length_seq|].
  intros i Hi. rewrite !list_lookup_fmap, !lookup_seq_lt by lia.
  simpl. by rewrite rot_0.
Qed.

(** The rotations of ["ab$"]. *)
Lemma C6_witness :
  length (make_rotations (py "ab$")) = 3
  ∧ make_rotations (py "ab$") !! 1 = Some (py "b$a")
  ∧ make_rotations (py "ab$") !! 0 = Some (py "ab$").
Proof.
  destruct (C6_make_rotations_contract (py "ab$")) as [Hlen Hrot].
  split; [exact Hlen|]. apply (Hrot 1). simpl. lia.
Defined.

(** C7, as stated, fails: ['$'] occurs zero times in ["a#b"], and
    [validate_bwt] returns no message for it but the string ["a$b"], its one
    symbol replaced by the sentinel.  The amended claim is proved at the
    end. *)
Lemma C7_counterexample_single_other_symbol :
  occurrences default_end_char (py "a#b") = 0
  ∧ validate_bwt (py "a#b") None default_end_char = py "a$b"
  ∧ py "a$b" ≠ msg_no_symbols None
  ∧ py "a$b" ≠ msg_many_symbols None.
Proof. repeat split; by vm_compute. Qed.

(** The answer of [validate_bwt] is one of its two messages for every string
    in which a character outside the alphabet occurs more than once, and for
    every string whose number of such characters is not one. *)
Lemma validate_bwt_message (string : list N) (line_no : option Z)
    (sentinel end_char : N) :
  ((sentinel ∉ ALPHABET) ∧ 1 < occurrences sentinel string)
  ∨ length (symbols string) ≠ 1 →
  validate_bwt string line_no end_char = msg_no_symbols line_no
  ∨ validate_bwt string line_no end_char = msg_many_symbols line_no.
Proof.
  intros H.
  assert (length (symbols string) = 0 ∨ 1 < length (symbols string)) as [H0|H2].
  { destruct H as [[Hs H]|H]; [|lia]. right.
    pose proof (occurrences_le_symbols _ string Hs). lia. }
  - left. by apply validate_bwt_no_symbols.
  - right. by apply validate_bwt_many_symbols.
Qed.

(** C8.  Scenario: [bw_transform("mississippi", "$") == "ipssm$pissii"] and
    [invert_bwt_via_map("ipssm$pissii", "$") == "mississippi"]. *)
Theorem C8_scenario_mississippi :
  bw_transform (py "mississippi") (ord "$") = Return (py "ipssm$pissii")
  ∧ invert_bwt_via_map (py "ipssm$pissii") (ord "$") = Return (py "mississippi").
Proof. split; vm_compute; reflexivity. Qed.

(** C9.  Boundary: for every sentinel [s], [bw_transform("", s)] succeeds and
    is the sentinel alone; [bw_transform("a", "$") == "a$"]. *)
Theorem C9_boundary :
  (∀ s : N, bw_transform [] s = Return [s])
  ∧ bw_transform (py "a") (ord "$") = Return (py "a$").
Proof. split; [intros s; reflexivity|vm_compute; reflexivity]. Qed.

(** C10.  For every text [T] over the permitted alphabet, spaces included
    (they sort before ['$']), the round trip with the default sentinel
    holds: [invert_bwt_via_map(bw_transform(T, '$'), '$') == T]. *)
Theorem C10_round_trip_default_sentinel (T : list N) :
  Forall (λ c, c ∈ ALPHABET) T →
  ∃ bwt,
    bw_transform T default_end_char = Return bwt
    ∧ invert_bwt_via_map bwt default_end_char = Return T.
Proof.
  intros HT. exists (last_col (T ++ [default_end_char])).
  split; [apply bw_transform_spec|].
  assert (default_end_char ∉ T) as Hfresh.
  { intros Hin. apply (proj1 (Forall_forall _ _) HT) in Hin.
    by apply sentinel_not_in_ALPHABET. }
  pose proof (invert_bw_transform T default_end_char Hfresh) as Hrt.
  by rewrite bw_transform_spec in Hrt.
Qed.

(** A text with spaces. *)
Lemma C10_witness :
  ∃ bwt,
    bw_transform (py "a b a") default_end_char = Return bwt
    ∧ invert_bwt_via_map bwt default_end_char = Return (py "a b a").
Proof.
  apply (C10_round_trip_default_sentinel (py "a b a")).
  by apply (bool_decide_unpack _); vm_compute.
Defined.

(** * Further properties of the transform *)

Lemma head_make_rotations t : head_or0 <$> make_rotations t = t.
Proof.
  rewrite make_rotations_spec. apply list_eq. intros j.
  rewrite <-list_fmap_compose, list_lookup_fmap.
  destruct (decide (j < length t)) as [Hj|Hj].
  - rewrite lookup_seq_lt by done. simpl.
    destruct (lookup_lt_is_Some_2 t j Hj) as [a Ha]. rewrite Ha.
    unfold rot. by rewrite (drop_S _ _ _ Ha).
  - rewrite lookup_seq_ge, lookup_ge_None_2 by lia. done.
Qed.

Lemma last_make_rotations t : last_or0 <$> make_rotations t ≡ₚ t.
Proof.
  rewrite <-(head_make_rotations t) at 2.
  rewrite <-(rotr_make_rotations t) at 2.
  rewrite <-list_fmap_compose.
  assert (last_or0 <$> make_rotations t = head_or0 ∘ rotr <$> make_rotations t) as ->;
    [|done].
  apply list_fmap_ext. intros i r _. simpl. by rewrite head_rotr.
Qed.

Lemma last_col_perm t : last_col t ≡ₚ t.
Proof.
  unfold last_col. rewrite matrix_perm. apply last_make_rotations.
Qed.

Lemma last_column_empty acc rs : [] ∈ rs → last_column acc rs = Raise IndexError.
Proof.
  revert acc. induction rs as [|r rs IH]; intros acc Hin; [by apply elem_of_nil in Hin|].
  simpl. destruct r as [|a r]; [done|].
  apply elem_of_cons in Hin as [?|Hin]; [done|].
  unfold getlast. destruct (last (a :: r)); simpl; [by apply IH|done].
Qed.

Lemma fmap_last_or0 (rs : list (list N)) :
  Forall (λ r, r ≠ []) rs → last <$> rs = Some <$> (last_or0 <$> rs).
Proof.
  induction 1 as [|r rs Hr _ IH]; csimpl; [done|].
  rewrite IH. f_equal. unfold last_or0.
  by apply last_is_Some in Hr as [c ->].
Qed.

Lemma fmap_head_or0 (rs : list (list N)) :
  Forall (λ r, r ≠ []) rs → head <$> rs = Some <$> (head_or0 <$> rs).
Proof.
  induction 1 as [|r rs Hr _ IH]; csimpl; [done|].
  rewrite IH. f_equal. by destruct r.
Qed.

Lemma matrix_nonempty t : t ≠ [] → Forall (λ r, r ≠ []) (matrix t).
Proof.
  intros Ht. eapply Forall_impl; [apply matrix_lengths|].
  intros r Hr ->. by destruct t.
Qed.

(** The first occurrence of a character splits a string in one way. *)
Lemma split_at_first (s : N) (a a' b b' : list N) :
  s ∉ a → s ∉ a' → a ++ s :: b = a' ++ s :: b' → a = a'.
Proof.
  revert a'. induction a as [|x a IH]; intros [|x' a'] Ha Ha' Heq; simplify_eq/=.
  - done.
  - by apply not_elem_of_cons in Ha' as [? _].
  - by apply not_elem_of_cons in Ha as [? _].
  - apply not_elem_of_cons in Ha as [_ Ha]. apply not_elem_of_cons in Ha' as [_ Ha'].
    f_equal. by eapply IH.
Qed.

Lemma rot_sentinel T s i :
  i ≤ length T → rot (T ++ [s]) i = drop i T ++ s :: take i T.
Proof.
  intros Hi. unfold rot.
  rewrite drop_app_le, take_app_le by done. by rewrite <-app_assoc.
Qed.

Lemma NoDup_make_rotations T s : s ∉ T → NoDup (make_rotations (T ++ [s])).
Proof.
  intros Hs. rewrite make_rotations_spec.
  apply NoDup_fmap_2_strong; [|apply NoDup_seq].
  rewrite length_app. simpl.
  intros i j [_ Hi]%elem_of_seq [_ Hj]%elem_of_seq.
  rewrite !rot_sentinel by lia. intros Heq.
  apply split_at_first in Heq.
  - apply (f_equal length) in Heq. rewrite !length_drop in Heq. lia.
  - intros Hin. by apply subseteq_drop in Hin.
  - intros Hin. by apply subseteq_drop in Hin.
Qed.

Lemma insert_sorted_fifo (x : N * nat) s :
  StronglySorted fifo s → Forall (λ q, x.2 < q.2) s →
  StronglySorted fifo (insert_sorted by_char x s).
Proof.
  induction 1 as [|y s Hs IH Hy]; simpl; intros Hx.
  { repeat constructor. }
  apply Forall_cons in Hx as [Hxy Hx].
  destruct (by_char x y) eqn:Hle.
  - constructor; [by constructor|].
    constructor; [by intros _|]. eapply Forall_impl; [exact Hx|]. by intros q ? _.
  - constructor; [by apply IH|]. rewrite insert_sorted_perm.
    constructor; [|done]. intros Heq.
    unfold by_char, char_le in Hle. apply N.leb_gt in Hle. lia.
Qed.

Lemma lf_pairs_fifo_from (last : list N) k :
  StronglySorted fifo (list_sort by_char (zip last (seq k (length last)))).
Proof.
  revert k. induction last as [|c last IH]; intros k; csimpl; [constructor|].
  apply insert_sorted_fifo; [apply IH|].
  rewrite list_sort_perm. apply Forall_forall. intros [c' i] Hin.
  apply elem_of_zip_r, elem_of_seq in Hin. simpl. lia.
Qed.

Lemma StronglySorted_lookup {A} (R : relation A) l i j x y :
  StronglySorted R l → i < j → l !! i = Some x → l !! j = Some y → R x y.
Proof.
  intros Hl. revert i j. induction Hl as [|a l Hl IH Ha]; intros i j Hij Hi Hj; [done|].
  destruct j as [|j]; [lia|]. destruct i as [|i]; simplify_eq/=.
  - apply list_elem_of_lookup_2 in Hj. by eapply (proj1 (Forall_forall _ _) Ha).
  - eapply (IH i j); [lia|done..].
Qed.

Lemma lf_pairs_elem last c i : (c, i) ∈ lf_pairs last → last !! i = Some c.
Proof.
  unfold lf_pairs. rewrite list_sort_perm.
  intros (j & c' & i' & [= <- <-] & Hc & Hi)%elem_of_lookup_zip_with.
  apply lookup_seq in Hi as [-> _]. done.
Qed.

(** X1.  [bw_transform] never raises, whatever the text and the sentinel
    (also a sentinel that occurs in the text), and its result is a
    rearrangement of the characters of the text and the sentinel. *)
Theorem X1_bw_transform_permutation (T : list N) (s : N) :
  ∃ bwt, bw_transform T s = Return bwt ∧ bwt ≡ₚ T ++ [s].
Proof.
  exists (last_col (T ++ [s])). split; [apply bw_transform_spec|apply last_col_perm].
Qed.

(** X2.  [sort_rotations] returns its argument rearranged in the
    lexicographic order of strings, and sorting a second time changes
    nothing. *)
Theorem X2_sort_rotations_sorted (rotations : list (list N)) :
  StronglySorted (λ a b, str_le a b = true) (sort_rotations rotations)
  ∧ sort_rotations rotations ≡ₚ rotations
  ∧ sort_rotations (sort_rotations rotations) = sort_rotations rotations.
Proof.
  assert (StronglySorted (holds str_le) (sort_rotations rotations)) as Hs.
  { apply list_sort_sorted; [apply str_le_total|apply str_le_trans]. }
  split; [exact Hs|]. split; [apply list_sort_perm|].
  symmetry. by apply sort_rotations_unique.
Qed.

(** X3.  [sorted_rotations_to_bwt] raises [IndexError] when one of the
    strings is empty ([rotation[-1]]); otherwise it returns the last
    characters of the strings, in their order. *)
Theorem X3_sorted_rotations_to_bwt_last_chars (sorted_rotations : list (list N)) :
  ([] ∈ sorted_rotations
   ∧ sorted_rotations_to_bwt sorted_rotations = Raise IndexError)
  ∨ (([] ∉ sorted_rotations)
     ∧ ∃ bwt, sorted_rotations_to_bwt sorted_rotations = Return bwt
              ∧ last <$> sorted_rotations = Some <$> bwt).
Proof.
  destruct (decide ([] ∈ sorted_rotations)) as [Hin|Hnin].
  - left. split; [done|]. by apply last_column_empty.
  - right. split; [done|].
    assert (Forall (λ r, r ≠ []) sorted_rotations) as Hall.
    { apply Forall_forall. by intros r Hr ->. }
    exists (last_or0 <$> sorted_rotations). split.
    + unfold sorted_rotations_to_bwt. by rewrite last_column_spec.
    + by apply fmap_last_or0.
Qed.

(** X4.  With a sentinel that does not occur in the text, the rotations made
    by [make_rotations] are pairwise distinct. *)
Theorem X4_make_rotations_distinct (T : list N) (s : N) :
  s ∉ T → NoDup (make_rotations (T ++ [s])).
Proof. apply NoDup_make_rotations. Qed.

(** The rotations of ["banana$"]. *)
Lemma X4_witness : NoDup (make_rotations (py "banana" ++ [ord "$"])).
Proof.
  apply (X4_make_rotations_distinct (py "banana") (ord "$")).
  by apply (bool_decide_unpack _); vm_compute.
Defined.

(** X5.  [sort_string] returns the characters of its argument in the order of
    their code points, and sorting a second time changes nothing. *)
Theorem X5_sort_string_sorted (astr : list N) :
  StronglySorted (λ a b, (a ≤ b)%N) (sort_string astr)
  ∧ sort_string astr ≡ₚ astr
  ∧ sort_string (sort_string astr) = sort_string astr.
Proof.
  assert (StronglySorted (holds char_le) (sort_string astr)) as Hs.
  { apply list_sort_sorted; [apply char_le_total|apply char_le_trans]. }
  split; [|split; [apply list_sort_perm|]].
  - induction Hs as [|a l _ IH Ha]; constructor; [done|].
    eapply Forall_impl; [exact Ha|]. intros b Hab. by apply N.leb_le.
  - symmetry. by apply sort_string_unique.
Qed.

(** X6.  The map of [build_map] leads from a position of the sorted string to
    a position of the same character in the argument, and the occurrences of
    one character are taken in the order in which they stand (the queues are
    first in, first out). *)
Theorem X6_build_map_same_character (last : list N) (lf_map : list nat) :
  build_map last = Return lf_map →
  (∀ j i, lf_map !! j = Some i → last !! i = sort_string last !! j)
  ∧ (∀ j j' i i', j < j' → lf_map !! j = Some i → lf_map !! j' = Some i' →
       sort_string last !! j = sort_string last !! j' → i < i').
Proof.
  rewrite build_map_spec, sort_string_lf_pairs. intros [= <-].
  assert (∀ j i, (lf_pairs last).*2 !! j = Some i →
            ∃ c, lf_pairs last !! j = Some (c, i)) as Hpair.
  { intros j i. rewrite list_lookup_fmap.
    destruct (lf_pairs last !! j) as [[c i']|]; intros [= <-]. by exists c. }
  split.
  - intros j i (c & Hj)%Hpair. rewrite list_lookup_fmap, Hj. simpl.
    by apply list_elem_of_lookup_2, lf_pairs_elem in Hj.
  - intros j j' i i' Hlt (c & Hj)%Hpair (c' & Hj')%Hpair.
    rewrite !list_lookup_fmap, Hj, Hj'. intros [= <-].
    by apply (StronglySorted_lookup fifo _ j j' (c, i) (c, i')
                (lf_pairs_fifo_from last 0)).
Qed.

(** The doctest [build_map('annb$aa')]: the three ['a'] at 0, 5 and 6. *)
Lemma X6_witness :
  (∀ j i, [4; 0; 5; 6; 3; 1; 2] !! j = Some i →
     py "annb$aa" !! i = sort_string (py "annb$aa") !! j)
  ∧ (∀ j j' i i', j < j' → [4; 0; 5; 6; 3; 1; 2] !! j = Some i →
       [4; 0; 5; 6; 3; 1; 2] !! j' = Some i' →
       sort_string (py "annb$aa") !! j = sort_string (py "annb$aa") !! j' → i < i').
Proof.
  apply (X6_build_map_same_character (py "annb$aa") [4; 0; 5; 6; 3; 1; 2]).
  vm_compute. reflexivity.
Defined.

(** X7.  The sorted characters of a transform are the first characters of
    the sorted rotations: [sort_string] rebuilds the first column from the
    last one. *)
Theorem X7_sort_string_first_column (T : list N) (s : N) :
  ∃ bwt, bw_transform T s = Return bwt
         ∧ head <$> sort_rotations (make_rotations (T ++ [s]))
           = Some <$> sort_string bwt.
Proof.
  exists (last_col (T ++ [s])). split; [apply bw_transform_spec|].
  rewrite sort_string_lf_pairs, <-rot_pairs_lf.
  assert ((prod_map head_or0 id <$> rot_pairs (T ++ [s])).*1
          = head_or0 <$> (rot_pairs (T ++ [s])).*1) as ->.
  { rewrite <-!list_fmap_compose. by apply list_fmap_ext. }
  rewrite rot_pairs_fst. apply fmap_head_or0, matrix_nonempty. by destruct T.
Qed.

(** X8.  On a transform, the map of [build_map] leads from the row of a
    sorted rotation [r] to the row of [r] rotated by one character to the
    left, [r[1:] + r[:1]], whose last character, the one of the transform in
    that row, is the first of [r]. *)
Theorem X8_build_map_left_rotation (T : list N) (s : N) (bwt : list N)
    (lf_map : list nat) (j : nat) (r : list N) :
  bw_transform T s = Return bwt →
  build_map bwt = Return lf_map →
  sort_rotations (make_rotations (T ++ [s])) !! j = Some r →
  ∃ i, lf_map !! j = Some i
       ∧ sort_rotations (make_rotations (T ++ [s])) !! i = Some (drop 1 r ++ take 1 r)
       ∧ bwt !! i = head r.
Proof.
  rewrite bw_transform_spec. intros [= <-] Hlf Hr.
  destruct (lf_step _ _ _ _ Hlf Hr) as (i & Hi & Hrow).
  exists i. split; [done|].
  assert (r ≠ []) as Hne.
  { apply list_elem_of_lookup_2 in Hr.
    apply (proj1 (Forall_forall _ _) (matrix_nonempty (T ++ [s]) ltac:(by destruct T))) in Hr.
    done. }
  destruct r as [|a w]; [done|]. simpl in *. rewrite drop_0. split; [done|].
  unfold last_col. rewrite list_lookup_fmap. fold (matrix (T ++ [s])). rewrite Hrow.
  simpl. unfold last_or0. by rewrite last_snoc.
Qed.

(** The row of ["a$"], the second of the two, leads to the row of ["$a"]. *)
Lemma X8_witness :
  ∃ i, [1; 0] !! 1 = Some i
       ∧ sort_rotations (make_rotations (py "a" ++ [ord "$"])) !! i
         = Some (drop 1 (py "a$") ++ take 1 (py "a$"))
       ∧ py "a$" !! i = head (py "a$").
Proof.
  apply (X8_build_map_left_rotation (py "a") (ord "$") (py "a$") [1; 0] 1 (py "a$"));
    vm_compute; reflexivity.
Defined.

(** * Further properties of the inversion *)

Lemma walk_total_elem bwt lf_map k i x text :
  lf_map ≡ₚ seq 0 (length bwt) → length text = length bwt →
  x < length bwt → i + k ≤ length bwt →
  ∃ cs, length cs = k ∧ Forall (λ c, c ∈ bwt) cs
    ∧ walk bwt lf_map (seq i k) x text
      = Return (take i text ++ ((λ c, [c]) <$> cs) ++ drop (i + k) text).
Proof.
  intros Hperm. revert i x text. induction k as [|k IH]; intros i x text Hlen Hx Hik.
  { exists []. split; [done|]. split; [done|].
    simpl. by rewrite Nat.add_0_r, take_drop. }
  destruct (lookup_lt_is_Some_2 lf_map x) as [x' Hx'].
  { by rewrite Hperm, length_seq. }
  assert (x' < length bwt) as Hlt.
  { apply list_elem_of_lookup_2 in Hx'. rewrite Hperm in Hx'.
    apply elem_of_seq in Hx'. lia. }
  destruct (lookup_lt_is_Some_2 bwt x' Hlt) as [c Hc].
  destruct (IH (S i) x' (<[i:=[c]]> text)) as (cs & Hcs & Hin & Hwalk);
    [by rewrite length_insert|done|lia|].
  exists (c :: cs). split; [simpl; lia|].
  split; [constructor; [by eapply list_elem_of_lookup_2|done]|].
  simpl. unfold getitem. rewrite Hx'. simpl. rewrite Hc. simpl.
  unfold setitem. rewrite decide_True by lia. simpl. rewrite Hwalk. f_equal.
  rewrite (take_S_r _ i [c]) by (apply list_lookup_insert_eq; lia).
  rewrite take_insert_ge, drop_insert_lt by lia. csimpl.
  rewrite <-app_assoc. by replace (i + S k) with (S (i + k)) by lia.
Qed.

Lemma text_using_map_total bwt lf_map e :
  lf_map ≡ₚ seq 0 (length bwt) → e ∈ bwt →
  ∃ text, text_using_map bwt lf_map e = Return text
          ∧ length text = length bwt ∧ Forall (λ c, c ∈ bwt) text.
Proof.
  intros Hperm He. unfold text_using_map.
  destruct (index_elem _ _ He) as (x & -> & Hx). simpl.
  apply lookup_lt_Some in Hx.
  destruct (walk_total_elem bwt lf_map (length bwt) 0 x (replicate (length bwt) []))
    as (cs & Hcs & Hin & ->); [done|by rewrite length_replicate|done|lia|].
  simpl. exists cs.
  rewrite drop_ge by (rewrite length_replicate; lia).
  by rewrite app_nil_r, concat_singletons.
Qed.

(** X9.  Given the sentinel, [text_using_map] rebuilds the text and its
    sentinel from the transform and its map, for every sentinel that does not
    occur in the text. *)
Theorem X9_text_using_map_rebuilds (T : list N) (s : N) :
  s ∉ T →
  ∃ bwt lf_map,
    bw_transform T s = Return bwt
    ∧ build_map bwt = Return lf_map
    ∧ text_using_map bwt lf_map s = Return (T ++ [s]).
Proof.
  intros Hs. exists (last_col (T ++ [s])), (lf_pairs (last_col (T ++ [s]))).*2.
  split; [apply bw_transform_spec|]. split; [apply build_map_spec|].
  apply text_using_map_spec; [done|apply build_map_spec].
Qed.

(** The text ["ab ab"] with the sentinel ['#']. *)
Lemma X9_witness :
  ∃ bwt lf_map,
    bw_transform (py "ab ab") (ord "#") = Return bwt
    ∧ build_map bwt = Return lf_map
    ∧ text_using_map bwt lf_map (ord "#") = Return (py "ab ab" ++ [ord "#"]).
Proof.
  apply (X9_text_using_map_rebuilds (py "ab ab") (ord "#")).
  by apply (bool_decide_unpack _); vm_compute.
Defined.

(** X10.  With a map that is a permutation of the indices of the string,
    [text_using_map] cannot leave the bounds: it raises [ValueError] when the
    sentinel does not occur in the string, and otherwise returns a string of
    the same length, made of characters of the string. *)
Theorem X10_text_using_map_in_bounds (bwt : list N) (lf_map : list nat) (end_char : N) :
  lf_map ≡ₚ seq 0 (length bwt) →
  (end_char ∈ bwt
   ∧ ∃ text, text_using_map bwt lf_map end_char = Return text
             ∧ length text = length bwt ∧ Forall (λ c, c ∈ bwt) text)
  ∨ ((end_char ∉ bwt) ∧ text_using_map bwt lf_map end_char = Raise ValueError).
Proof.
  intros Hperm. destruct (decide (end_char ∈ bwt)) as [He|He].
  - left. split; [done|]. by apply text_using_map_total.
  - right. split; [done|]. unfold text_using_map. by rewrite index_absent.
Qed.

(** A map that is no last-first map of the string. *)
Lemma X10_witness :
  (ord "$" ∈ py "b$a"
   ∧ ∃ text, text_using_map (py "b$a") [0; 2; 1] (ord "$") = Return text
             ∧ length text = length (py "b$a") ∧ Forall (λ c, c ∈ py "b$a") text)
  ∨ ((ord "$" ∉ py "b$a")
     ∧ text_using_map (py "b$a") [0; 2; 1] (ord "$") = Raise ValueError).
Proof.
  apply (X10_text_using_map_in_bounds (py "b$a") [0; 2; 1] (ord "$")).
  by apply (bool_decide_unpack _); vm_compute.
Defined.

(** X11.  [text_using_map] does not compare the lengths of the string and of
    the map: with a map too short for the position of the sentinel, the empty
    map for one, it raises [IndexError]. *)
Theorem X11_text_using_map_short_map (bwt : list N) (lf_map : list nat)
    (end_char : N) (x : nat) :
  index bwt end_char = Return x → length lf_map ≤ x →
  text_using_map bwt lf_map end_char = Raise IndexError.
Proof.
  intros Hx Hlen. unfold text_using_map. rewrite Hx. simpl.
  assert (0 < length bwt) as Hpos.
  { destruct bwt; [done|simpl; lia]. }
  destruct (length bwt) as [|n]; [lia|]. simpl.
  unfold getitem. by rewrite lookup_ge_None_2.
Qed.

(** The doctest string ["annb$aa"] with an empty map. *)
Lemma X11_witness :
  text_using_map (py "annb$aa") [] (ord "$") = Raise IndexError.
Proof.
  apply (X11_text_using_map_short_map (py "annb$aa") [] (ord "$") 4).
  - vm_compute. reflexivity.
  - simpl. lia.
Defined.

(** X12.  [invert_bwt_via_map] raises [ValueError] for every string without
    ['$'], the empty string included, whatever [end_char] it is given. *)
Theorem X12_invert_without_dollar (bwt : list N) (end_char : N) :
  ord "$" ∉ bwt → invert_bwt_via_map bwt end_char = Raise ValueError.
Proof. apply invert_without_default_sentinel. Qed.

(** The empty string. *)
Lemma X12_witness : invert_bwt_via_map [] (ord "$") = Raise ValueError.
Proof.
  apply (X12_invert_without_dollar [] (ord "$")). apply not_elem_of_nil.
Defined.

(** X13.  [invert_bwt_via_map] returns for every string in which ['$']
    occurs, a transform or not and whatever the number of ['$']: the result
    has one character less than the string and is made of its characters. *)
Theorem X13_invert_with_dollar (bwt : list N) (end_char : N) :
  ord "$" ∈ bwt →
  ∃ text, invert_bwt_via_map bwt end_char = Return text
          ∧ length text = length bwt - 1 ∧ Forall (λ c, c ∈ bwt) text.
Proof.
  intros Hin. unfold invert_bwt_via_map. rewrite build_map_spec. simpl.
  destruct (text_using_map_total bwt (lf_pairs bwt).*2 default_end_char)
    as (text & -> & Hlen & Hall); [apply lf_pairs_perm|done|].
  simpl. exists (but_last text). split; [done|]. unfold but_last. split.
  - rewrite length_take. lia.
  - apply Forall_take. done.
Qed.

(** No transform: ["$$ab"] has two sentinels. *)
Lemma X13_witness :
  ∃ text, invert_bwt_via_map (py "$$ab") (ord "$") = Return text
          ∧ length text = length (py "$$ab") - 1
          ∧ Forall (λ c, c ∈ py "$$ab") text.
Proof.
  apply (X13_invert_with_dollar (py "$$ab") (ord "$")).
  by apply (bool_decide_unpack _); vm_compute.
Defined.

(** X14.  The inversion of a transform made with a sentinel other than ['$']
    raises [ValueError], for every text without ['$'] and with the same
    sentinel given to both calls. *)
Theorem X14_round_trip_other_sentinel (T : list N) (s : N) :
  ord "$" ∉ T → s ≠ ord "$" →
  ∃ bwt, bw_transform T s = Return bwt
         ∧ invert_bwt_via_map bwt s = Raise ValueError.
Proof.
  intros HT Hs. exists (last_col (T ++ [s])). split; [apply bw_transform_spec|].
  pose proof (invert_bw_transform_other_sentinel T s HT Hs) as H.
  by rewrite bw_transform_spec in H.
Qed.

(** The text ["banana"] with the sentinel ['#']. *)
Lemma X14_witness :
  ∃ bwt, bw_transform (py "banana") (ord "#") = Return bwt
         ∧ invert_bwt_via_map bwt (ord "#") = Raise ValueError.
Proof.
  apply (X14_round_trip_other_sentinel (py "banana") (ord "#")).
  - by apply (bool_decide_unpack _); vm_compute.
  - done.
Defined.

(** * Further properties of the validations *)

Lemma symbols_app (a b : list N) : symbols (a ++ b) = symbols a ++ symbols b.
Proof. apply filter_app. Qed.

Lemma symbols_nil_Forall (text : list N) :
  symbols text = [] ↔ Forall (λ c, c ∈ ALPHABET) text.
Proof.
  unfold symbols. induction text as [|c text IH]; [done|].
  rewrite filter_cons, Forall_cons. destruct (decide (c ∉ ALPHABET)) as [Hc|Hc].
  - split; [done|]. by intros [? _].
  - apply dec_stable in Hc. rewrite IH. split; [by split|by intros [_ ?]].
Qed.

Lemma count_symbols_spec acc text :
  count_symbols acc text = acc + length (symbols text).
Proof.
  revert acc. unfold symbols. induction text as [|c text IH]; intros acc; simpl; [lia|].
  rewrite filter_cons.
  destruct (decide (c ∈ ALPHABET)), (decide (c ∉ ALPHABET)); try done;
    rewrite IH; simpl; lia.
Qed.

(** Every message ends with a full stop, a character outside the alphabet:
    with a line number it has two of them. *)
Lemma symbols_msg_other_characters line_no :
  0 < length (symbols (msg_other_characters line_no)).
Proof.
  assert (0 < length (symbols
            (py "String has characters other than spaces and alphanumeric."))) as H0.
  { vm_compute. lia. }
  destruct line_no as [z|]; [|exact H0]. unfold msg_other_characters.
  destruct (z =? 0)%Z; [exact H0|].
  rewrite !symbols_app, !length_app.
  assert (0 < length (symbols
            (py " has characters other than spaces and alphanumeric."))).
  { vm_compute. lia. }
  lia.
Qed.

Lemma symbols_msg_no_symbols line_no :
  0 < length (symbols (msg_no_symbols line_no)).
Proof.
  assert (0 < length (symbols (py "String has no symbols."))) as H0.
  { vm_compute. lia. }
  destruct line_no as [z|]; [|exact H0]. unfold msg_no_symbols.
  destruct (z =? 0)%Z; [exact H0|].
  rewrite !symbols_app, !length_app.
  assert (0 < length (symbols (py " has no symbols."))) by (vm_compute; lia).
  lia.
Qed.

Lemma symbols_msg_many_symbols_line z :
  z ≠ 0%Z → 1 < length (symbols (msg_many_symbols (Some z))).
Proof.
  intros Hz. unfold msg_many_symbols. destruct (Z.eqb_spec z 0); [done|].
  rewrite !symbols_app, !length_app.
  assert (0 < length (symbols (py "Line no. "))) by (vm_compute; lia).
  assert (0 < length (symbols (py " has more than one symbols."))) by (vm_compute; lia).
  lia.
Qed.

Lemma symbols_one_split (string : list N) :
  length (symbols string) = 1 →
  ∃ before c after,
    string = before ++ c :: after
    ∧ Forall (λ a, a ∈ ALPHABET) before ∧ Forall (λ a, a ∈ ALPHABET) after
    ∧ c ∉ ALPHABET.
Proof.
  induction string as [|a string IH]; [done|].
  unfold symbols in *. rewrite filter_cons.
  destruct (decide (a ∉ ALPHABET)) as [Ha|Ha]; simpl; intros Hlen.
  - exists [], a, string. split; [done|]. split; [done|]. split; [|done].
    apply symbols_nil_Forall. apply nil_length_inv. unfold symbols. lia.
  - apply dec_stable in Ha. destruct (IH Hlen) as (before & c & after & -> & ? & ? & ?).
    exists (a :: before), c, after. split; [done|]. split; [by constructor|done].
Qed.

Lemma symbols_one_symbol (before after : list N) c :
  Forall (λ a, a ∈ ALPHABET) before → Forall (λ a, a ∈ ALPHABET) after →
  c ∉ ALPHABET → symbols (before ++ c :: after) = [c].
Proof.
  intros Hb%symbols_nil_Forall Ha%symbols_nil_Forall Hc.
  rewrite symbols_app, Hb. simpl. unfold symbols in *.
  by rewrite filter_cons, decide_True, Ha.
Qed.

Lemma validate_bwt_accepts (string : list N) line_no end_char :
  symbols string = [end_char] → validate_bwt string line_no end_char = string.
Proof.
  intros Hs. destruct (symbols_one_split string) as (before & c & after & -> & Hb & Ha & Hc).
  { by rewrite Hs. }
  rewrite symbols_one_symbol in Hs by done. injection Hs as ->.
  by apply validate_bwt_one_symbol.
Qed.

Lemma validate_text_unchanged (text : list N) (line_no : option Z) :
  validate_text text line_no = text
  ↔ Forall (λ c, c ∈ ALPHABET) text ∨ text = msg_other_characters line_no.
Proof.
  unfold validate_text. rewrite count_symbols_spec. simpl. split.
  - destruct (decide (0 < length (symbols text))) as [Hpos|Hzero].
    { intros <-. by right. }
    intros _. left. apply symbols_nil_Forall, nil_length_inv. lia.
  - intros [Hall| ->].
    + apply symbols_nil_Forall in Hall. rewrite Hall. done.
    + by rewrite decide_True by apply symbols_msg_other_characters.
Qed.

Lemma validate_bwt_unchanged (string : list N) (line_no : option Z) (end_char : N) :
  validate_bwt string line_no end_char = string
  ↔ symbols string = [end_char]
    ∨ ∃ z, line_no = Some z ∧ z ≠ 0%Z ∧ string = msg_many_symbols (Some z).
Proof.
  split.
  - intros Heq.
    assert (length (symbols string) = 0 ∨ length (symbols string) = 1
            ∨ 1 < length (symbols string)) as [H0|[H1|H2]] by lia.
    + rewrite validate_bwt_no_symbols in Heq by done.
      pose proof (symbols_msg_no_symbols line_no). rewrite Heq in *. lia.
    + left. destruct (symbols_one_split string H1)
        as (before & c & after & -> & Hb & Ha & Hc).
      rewrite validate_bwt_one_symbol in Heq by done.
      apply app_inv_head in Heq. injection Heq as ->.
      by apply symbols_one_symbol.
    + right. rewrite validate_bwt_many_symbols in Heq by done. subst string.
      assert (length (symbols (py "String has more than one symbols.")) = 1) as Hone.
      { vm_compute. reflexivity. }
      destruct line_no as [z|]; [|unfold msg_many_symbols in H2; lia].
      destruct (Z.eqb_spec z 0) as [->|Hz]; [unfold msg_many_symbols in H2; simpl in H2; lia|].
      by exists z.
  - intros [Hs|(z & -> & Hz & ->)]; [by apply validate_bwt_accepts|].
    apply validate_bwt_many_symbols. by apply symbols_msg_many_symbols_line.
Qed.

(** X15.  [validate_text] returns its argument unchanged, which is what its
    callers test, exactly for the texts over the alphabet and for the text
    that is the message itself. *)
Theorem X15_validate_text_accepts (text : list N) (line_no : option Z) :
  validate_text text line_no = text
  ↔ Forall (λ c, c ∈ ALPHABET) text ∨ text = msg_other_characters line_no.
Proof. apply validate_text_unchanged. Qed.

(** X16.  [validate_bwt] returns its argument unchanged, which is what its
    callers test, exactly for the strings whose one character outside the
    alphabet is [end_char], and, with a line number other than 0, for the
    string that is the message of several symbols for that line. *)
Theorem X16_validate_bwt_accepts (string : list N) (line_no : option Z) (end_char : N) :
  validate_bwt string line_no end_char = string
  ↔ symbols string = [end_char]
    ∨ ∃ z, line_no = Some z ∧ z ≠ 0%Z ∧ string = msg_many_symbols (Some z).
Proof. apply validate_bwt_unchanged. Qed.

(** X17.  The transform, with the sentinel ['$'], of a text over the alphabet
    passes [validate_bwt] unchanged, with or without a line number. *)
Theorem X17_validate_bwt_of_transform (T : list N) (line_no : option Z) :
  Forall (λ c, c ∈ ALPHABET) T →
  ∃ bwt, bw_transform T (ord "$") = Return bwt
         ∧ validate_bwt bwt line_no (ord "$") = bwt.
Proof.
  intros HT. exists (last_col (T ++ [ord "$"])). split; [apply bw_transform_spec|].
  apply validate_bwt_accepts. apply Permutation_singleton_r.
  unfold symbols. rewrite last_col_perm. fold (symbols (T ++ [ord "$"])).
  rewrite symbols_app. apply symbols_nil_Forall in HT. rewrite HT. simpl.
  unfold symbols. rewrite filter_cons, decide_True by apply sentinel_not_in_ALPHABET.
  done.
Qed.

(** The text ["3 aardvarks"], on line 7. *)
Lemma X17_witness :
  ∃ bwt, bw_transform (py "3 aardvarks") (ord "$") = Return bwt
         ∧ validate_bwt bwt (Some 7%Z) (ord "$") = bwt.
Proof.
  apply (X17_validate_bwt_of_transform (py "3 aardvarks") (Some 7%Z)).
  by apply (bool_decide_unpack _); vm_compute.
Defined.

(** * Properties of the callers *)

Lemma round_trip_alphabet (T : list N) :
  Forall (λ c, c ∈ ALPHABET) T →
  ∃ bwt, bw_transform T default_end_char = Return bwt
         ∧ invert_bwt_via_map bwt default_end_char = Return T.
Proof.
  intros HT. exists (last_col (T ++ [default_end_char])).
  split; [apply bw_transform_spec|].
  assert (default_end_char ∉ T) as Hfresh.
  { intros Hin. apply (proj1 (Forall_forall _ _) HT) in Hin.
    by apply sentinel_not_in_ALPHABET. }
  pose proof (invert_bw_transform T default_end_char Hfresh) as Hrt.
  by rewrite bw_transform_spec in Hrt.
Qed.

(** A number is printed without ['$']. *)
Lemma pretty_N_go_no_dollar x s :
  Forall (λ a, ord a ≠ 36%N) (list_ascii_of_string s) →
  Forall (λ a, ord a ≠ 36%N) (list_ascii_of_string (pretty_N_go x s)).
Proof.
  revert s. induction (N.lt_wf_0 x) as [x _ IH]; intros s Hs.
  assert (x = 0 ∨ 0 < x)%N as [->|Hx] by lia; [by rewrite pretty_N_go_0|].
  rewrite pretty_N_go_step by done. apply IH; [by apply N.div_lt|].
  simpl. constructor; [|done].
  unfold pretty_N_char. by repeat case_match.
Qed.

Lemma pretty_Z_no_dollar (z : Z) : ord "$" ∉ py (pretty z).
Proof.
  assert (∀ p : positive, Forall (λ a, ord a ≠ 36%N) (list_ascii_of_string (pretty p))) as Hp.
  { intros p. unfold pretty, pretty_positive, pretty, pretty_N.
    case_decide; [done|]. by apply pretty_N_go_no_dollar. }
  assert (Forall (λ a, ord a ≠ 36%N) (list_ascii_of_string (pretty z))) as Hz.
  { destruct z as [|p|p]; unfold pretty, pretty_Z.
    - by repeat constructor.
    - apply Hp.
    - simpl. constructor; [done|]. apply Hp. }
  unfold py. intros (a & Ha & Hin)%list_elem_of_fmap.
  apply (proj1 (Forall_forall _ _) Hz) in Hin. by rewrite <-Ha in Hin.
Qed.

Lemma msg_many_symbols_no_dollar line_no : ord "$" ∉ msg_many_symbols line_no.
Proof.
  assert (ord "$" ∉ py "String has more than one symbols.") as H0.
  { by apply (bool_decide_unpack _); vm_compute. }
  destruct line_no as [z|]; [|exact H0]. unfold msg_many_symbols.
  destruct (z =? 0)%Z; [exact H0|].
  rewrite !elem_of_app. intros [Hin|[Hin|Hin]].
  - revert Hin. by apply (bool_decide_unpack _); vm_compute.
  - by apply pretty_Z_no_dollar in Hin.
  - revert Hin. by apply (bool_decide_unpack _); vm_compute.
Qed.

Lemma lines_loop_spec line lines counter end_char output_list out :
  lines_loop line lines counter end_char output_list out
  = (output_list ++ imap (λ i raw, (line raw (counter + i) end_char).1) lines,
     out ++ concat (imap (λ i raw, (line raw (counter + i) end_char).2) lines)).
Proof.
  revert counter output_list out.
  induction lines as [|raw lines IH]; intros counter output_list out; csimpl.
  { by rewrite !app_nil_r. }
  destruct (line raw counter end_char) as [text p] eqn:Hline.
  rewrite IH, Nat.add_0_r, Hline. simpl. rewrite <-!app_assoc. simpl.
  assert (∀ i, S (counter + i) = counter + S i) as Hadd by (intros; lia).
  f_equal.
  - do 2 f_equal. apply imap_ext. intros i x _. simpl. by rewrite Hadd.
  - do 3 f_equal. apply imap_ext. intros i x _. simpl. by rewrite Hadd.
Qed.

(** X18.  The string block of [main] in bw_transform.py prints, for a string
    that is over the alphabet once stripped, one string: the transform of
    the stripped string, from which [invert_bwt_via_map] gives the stripped
    string back. *)
Theorem X18_encode_string_round_trip (string : list N) :
  string ≠ [] → Forall (λ c, c ∈ ALPHABET) (strip string) →
  ∃ bwt, encode_string (Some string) = [PrintStr bwt]
         ∧ invert_bwt_via_map bwt (ord "$") = Return (strip string).
Proof.
  intros Hne Hall. destruct string as [|c0 string]; [done|].
  unfold encode_string. generalize dependent (strip (c0 :: string)). intros text Hall.
  assert (validate_text text None = text) as ->.
  { apply validate_text_unchanged. by left. }
  rewrite decide_False by (by intros ?).
  destruct (round_trip_alphabet text Hall) as (bwt & -> & Hinv).
  by exists bwt.
Qed.

(** A string with leading and trailing spaces. *)
Lemma X18_witness :
  ∃ bwt, encode_string (Some (py "  a b ")) = [PrintStr bwt]
         ∧ invert_bwt_via_map bwt (ord "$") = Return (strip (py "  a b ")).
Proof.
  apply (X18_encode_string_round_trip (py "  a b ")); [done|].
  by apply (bool_decide_unpack _); vm_compute.
Defined.

Lemma validate_text_rejects (text : list N) (line_no : option Z) :
  ¬ Forall (λ c, c ∈ ALPHABET) text →
  validate_text text line_no = msg_other_characters line_no.
Proof.
  intros Hnot. unfold validate_text. rewrite count_symbols_spec. simpl.
  rewrite decide_True; [done|].
  destruct (symbols text) eqn:Hs; [|simpl; lia].
  by apply symbols_nil_Forall in Hs.
Qed.

Lemma symbols_transform (T : list N) :
  Forall (λ c, c ∈ ALPHABET) T →
  symbols (last_col (T ++ [default_end_char])) = [default_end_char].
Proof.
  intros HT. apply Permutation_singleton_r.
  unfold symbols. rewrite last_col_perm. fold (symbols (T ++ [default_end_char])).
  rewrite symbols_app. apply symbols_nil_Forall in HT. rewrite HT. simpl.
  unfold symbols. rewrite filter_cons, decide_True by apply sentinel_not_in_ALPHABET.
  done.
Qed.

(** X19.  The string block of [main] in bw_transform.py prints no transform
    for a string that, once stripped, has a character outside the alphabet
    (the message itself apart): it prints the message and the help. *)
Theorem X19_encode_string_rejects (string : list N) :
  string ≠ [] →
  ¬ Forall (λ c, c ∈ ALPHABET) (strip string) →
  strip string ≠ msg_other_characters None →
  encode_string (Some string) = [PrintStr (msg_other_characters None); PrintHelp].
Proof.
  intros Hne Hnot Hmsg. destruct string as [|c0 string]; [done|].
  unfold encode_string. generalize dependent (strip (c0 :: string)). intros text Hnot Hmsg.
  rewrite validate_text_rejects by done. by rewrite decide_True by done.
Qed.

(** A string with the sentinel in it. *)
Lemma X19_witness :
  encode_string (Some (py "a$bab$s"))
  = [PrintStr (msg_other_characters None); PrintHelp].
Proof.
  apply (X19_encode_string_rejects (py "a$bab$s")); [done| |done].
  by apply (bool_decide_unpack _); vm_compute.
Defined.

(** X20.  For a line that is, without its newline, the transform with ['$']
    of a text over the alphabet, the loop of [decode_file_as_word_list]
    yields the text or the empty string, whatever the line number and
    [end_char] are and whatever [authenticate] answers; it yields the text,
    and prints nothing, when [authenticate] answers [True]. *)
Theorem X20_decode_line_of_transform
    (authenticate : list N → list N → N → result bool)
    (T raw bwt : list N) (counter : nat) (end_char : N) :
  Forall (λ c, c ∈ ALPHABET) T →
  bw_transform T (ord "$") = Return bwt →
  strip_newline raw = bwt →
  ((decode_line authenticate raw counter end_char).1 = T
   ∨ (decode_line authenticate raw counter end_char).1 = [])
  ∧ (authenticate bwt T end_char = Return true →
     decode_line authenticate raw counter end_char = (T, [])).
Proof.
  intros HT Hbwt Hraw. unfold decode_line. rewrite Hraw.
  change (ord "$") with default_end_char in *.
  rewrite bw_transform_spec in Hbwt. injection Hbwt as <-.
  rewrite validate_bwt_accepts by (by apply symbols_transform).
  rewrite decide_True by done.
  assert (invert_bwt_via_map (last_col (T ++ [default_end_char])) end_char = Return T)
    as ->.
  { assert (default_end_char ∉ T) as Hfresh.
    { intros Hin. apply (proj1 (Forall_forall _ _) HT) in Hin.
      by apply sentinel_not_in_ALPHABET. }
    pose proof (invert_bw_transform T end_char Hfresh) as Hrt.
    by rewrite bw_transform_spec in Hrt. }
  simpl. split.
  - destruct (authenticate _ T end_char) as [[|]|e]; simpl; auto.
  - by intros ->.
Qed.

(** The line ["ipssm$pissii\n"], with an [authenticate] that says yes. *)
Lemma X20_witness :
  ((decode_line (λ _ _ _, Return true) (py "ipssm$pissii" ++ [10%N]) 3 (ord "$")).1
   = py "mississippi"
   ∨ (decode_line (λ _ _ _, Return true) (py "ipssm$pissii" ++ [10%N]) 3 (ord "$")).1
     = [])
  ∧ decode_line (λ _ _ _, Return true) (py "ipssm$pissii" ++ [10%N]) 3 (ord "$")
    = (py "mississippi", []).
Proof.
  destruct (X20_decode_line_of_transform (λ _ _ _, Return true)
              (py "mississippi") (py "ipssm$pissii" ++ [10%N]) (py "ipssm$pissii")
              3 (ord "$")) as [H1 H2].
  - by apply (bool_decide_unpack _); vm_compute.
  - vm_compute. reflexivity.
  - vm_compute. reflexivity.
  - split; [exact H1|]. apply H2. reflexivity.
Defined.

(** X21.  For a line that, without its newline, does not have ['$'] for its
    one character outside the alphabet, the loop of
    [decode_file_as_word_list] yields the empty string: whatever the line
    number and [end_char] are and whatever [authenticate] answers, also for
    a line written with another sentinel. *)
Theorem X21_decode_line_rejects
    (authenticate : list N → list N → N → result bool)
    (raw : list N) (counter : nat) (end_char : N) :
  symbols (strip_newline raw) ≠ [ord "$"] →
  (decode_line authenticate raw counter end_char).1 = [].
Proof.
  intros Hs. unfold decode_line.
  generalize dependent (strip_newline raw). intros line Hs.
  destruct (decide (validate_bwt line (Some (Z.of_nat counter)) default_end_char = line))
    as [Heq|Hne]; [|done].
  rewrite Heq. apply validate_bwt_unchanged in Heq as [?|(z & _ & _ & ->)]; [done|].
  rewrite invert_without_default_sentinel by apply msg_many_symbols_no_dollar.
  done.
Qed.

(** The transform of ["a"] made with the sentinel ['#'], given with it. *)
Lemma X21_witness :
  (decode_line (λ _ _ _, Return true) (py "a#" ++ [10%N]) 0 (ord "#")).1 = [].
Proof.
  apply (X21_decode_line_rejects (λ _ _ _, Return true) (py "a#" ++ [10%N]) 0 (ord "#")).
  by vm_compute.
Defined.

(** X22.  [encode_file_as_word_list] and [decode_file_as_word_list] yield one
    string for each line, in the order of the lines: the one of the body of
    the loop for that line and its number, counted from 0, whatever the
    other lines are. *)
Theorem X22_one_entry_per_line
    (authenticate : list N → list N → N → result bool)
    (lines : list (list N)) (end_char : N) :
  (encode_file_as_word_list authenticate lines end_char).1
  = imap (λ i raw, (encode_line authenticate raw i end_char).1) lines
  ∧ (decode_file_as_word_list authenticate lines end_char).1
    = imap (λ i raw, (decode_line authenticate raw i end_char).1) lines.
Proof.
  unfold encode_file_as_word_list, decode_file_as_word_list.
  by rewrite !lines_loop_spec.
Qed.

(** X23.  For a line that, once stripped, has a character outside the
    alphabet (the message for its line apart), the loop of
    [encode_file_as_word_list] yields the empty string and prints the
    message; for a line over the alphabet it yields the transform of the
    stripped line with [end_char], or the empty string. *)
Theorem X23_encode_line
    (authenticate : list N → list N → N → result bool)
    (raw : list N) (counter : nat) (end_char : N) :
  (Forall (λ c, c ∈ ALPHABET) (strip raw) →
   ∃ bwt, bw_transform (strip raw) end_char = Return bwt
          ∧ ((encode_line authenticate raw counter end_char).1 = bwt
             ∨ (encode_line authenticate raw counter end_char).1 = []))
  ∧ (¬ Forall (λ c, c ∈ ALPHABET) (strip raw) →
     strip raw ≠ msg_other_characters (Some (Z.of_nat counter)) →
     encode_line authenticate raw counter end_char
     = ([], [PrintStr (msg_other_characters (Some (Z.of_nat counter)))])).
Proof.
  unfold encode_line. generalize (strip raw). intros text. split.
  - intros Hall. rewrite (proj2 (validate_text_unchanged _ _)) by (by left).
    rewrite decide_True by done. rewrite bw_transform_spec. simpl.
    eexists. split; [done|].
    destruct (authenticate _ text end_char) as [[|]|e]; simpl; auto.
  - intros Hnot Hmsg. rewrite validate_text_rejects by done.
    by rewrite decide_False by done.
Qed.

(** The lines ["  ab "] and ["a.b"], with an [authenticate] that says yes. *)
Lemma X23_witness :
  (∃ bwt, bw_transform (strip (py "  ab ")) (ord "$") = Return bwt
          ∧ ((encode_line (λ _ _ _, Return true) (py "  ab ") 2 (ord "$")).1 = bwt
             ∨ (encode_line (λ _ _ _, Return true) (py "  ab ") 2 (ord "$")).1 = []))
  ∧ encode_line (λ _ _ _, Return true) (py "a.b") 2 (ord "$")
    = ([], [PrintStr (msg_other_characters (Some 2%Z))]).
Proof.
  split.
  - apply (X23_encode_line (λ _ _ _, Return true) (py "  ab ") 2 (ord "$")).
    by apply (bool_decide_unpack _); vm_compute.
  - apply (X23_encode_line (λ _ _ _, Return true) (py "a.b") 2 (ord "$")).
    + by apply (bool_decide_unpack _); vm_compute.
    + by vm_compute.
Defined.

(** X24.  The string block of [main] in invert_bwt.py decodes nothing for a
    string that does not have ['$'] for its one character outside the
    alphabet: it prints what [validate_bwt] returned, and the help. *)
Theorem X24_decode_string_rejects
    (authenticate : list N → list N → N → result bool) (string : list N) :
  string ≠ [] → symbols string ≠ [ord "$"] →
  decode_string authenticate (Some string)
  = [PrintStr (validate_bwt string None (ord "$")); PrintHelp].
Proof.
  intros Hne Hs. destruct string as [|c0 string]; [done|].
  unfold decode_string. rewrite decide_True; [done|].
  intros [?|(z & [=] & _)]%validate_bwt_unchanged. done.
Qed.

(** The string ["a#b"]: what is printed is ["a$b"]. *)
Lemma X24_witness :
  decode_string (λ _ _ _, Return true) (Some (py "a#b"))
  = [PrintStr (validate_bwt (py "a#b") None (ord "$")); PrintHelp].
Proof.
  apply (X24_decode_string_rejects (λ _ _ _, Return true) (py "a#b")); [done|].
  by vm_compute.
Defined.

(** X25.  The string block of [main] in invert_bwt.py prints, for the
    transform with ['$'] of a text over the alphabet, the text and nothing
    else, when [authenticate] answers [True]. *)
Theorem X25_decode_string_of_transform
    (authenticate : list N → list N → N → result bool) (T bwt : list N) :
  Forall (λ c, c ∈ ALPHABET) T →
  bw_transform T (ord "$") = Return bwt →
  authenticate bwt T (ord "$") = Return true →
  decode_string authenticate (Some bwt) = [PrintStr T].
Proof.
  change (ord "$") with default_end_char. intros HT Hbwt Hauth.
  destruct (round_trip_alphabet T HT) as (bwt' & Hbwt' & Hinv).
  assert (bwt' = bwt) as -> by congruence.
  assert (bwt ≠ []) as Hne.
  { destruct (bw_transform_length T default_end_char) as (b & Hb & Hlen).
    assert (b = bwt) as -> by congruence. intros ->. simpl in Hlen. lia. }
  destruct bwt as [|c0 bwt]; [done|].
  unfold decode_string.
  assert (validate_bwt (c0 :: bwt) None default_end_char = c0 :: bwt) as ->.
  { rewrite bw_transform_spec in Hbwt. injection Hbwt as Hb.
    apply validate_bwt_accepts. rewrite <-Hb. by apply symbols_transform. }
  rewrite decide_False by (by intros ?).
  rewrite Hinv. simpl. by rewrite Hauth.
Qed.

(** The string ["ipssm$pissii"], with an [authenticate] that says yes. *)
Lemma X25_witness :
  decode_string (λ _ _ _, Return true) (Some (py "ipssm$pissii"))
  = [PrintStr (py "mississippi")].
Proof.
  apply (X25_decode_string_of_transform (λ _ _ _, Return true)
           (py "mississippi") (py "ipssm$pissii")).
  - by apply (bool_decide_unpack _); vm_compute.
  - vm_compute. reflexivity.
  - reflexivity.
Defined.

(** * The amended claims *)

(** In a sorted string the characters below a character come first. *)
Lemma sorted_take_smaller (l : list N) c :
  StronglySorted (holds char_le) l →
  take (length (filter (λ a, (a < c)%N) l)) l = filter (λ a, (a < c)%N) l.
Proof.
  induction 1 as [|a l Hl IH Ha]; [done|].
  rewrite filter_cons. destruct (decide (a < c)%N) as [Hlt|Hge]; simpl.
  - by rewrite IH.
  - assert (filter (λ a, (a < c)%N) l = []) as ->; [|done].
    clear -Ha Hge. induction Ha as [|b l Hb _ IH]; [done|].
    rewrite filter_cons, decide_False; [done|].
    unfold holds, char_le in Hb. apply N.leb_le in Hb. lia.
Qed.

Lemma sort_string_lookup_smaller B c i :
  i < length (filter (λ a, (a < c)%N) B) →
  ∃ a, sort_string B !! i = Some a ∧ (a < c)%N ∧ a ∈ B.
Proof.
  intros Hi. unfold sort_string.
  assert (length (filter (λ a, (a < c)%N) B)
          = length (filter (λ a, (a < c)%N) (list_sort char_le B))) as Hlen.
  { by rewrite list_sort_perm. }
  rewrite Hlen in Hi.
  pose proof (sorted_take_smaller (list_sort char_le B) c
                (list_sort_sorted char_le char_le_total char_le_trans B)) as Htake.
  destruct (lookup_lt_is_Some_2 _ i Hi) as [a Ha].
  exists a. rewrite <-Htake in Ha. rewrite lookup_take_lt in Ha by done.
  split; [done|].
  assert (a ∈ filter (λ a, (a < c)%N) (list_sort char_le B)) as Hin.
  { rewrite <-Htake. apply list_elem_of_lookup. exists i.
    by rewrite lookup_take_lt. }
  apply list_elem_of_filter in Hin as [Hlt Hin].
  split; [done|]. by apply elem_of_list_sort in Hin.
Qed.

(** Of the sentinel and the alphabet, the space alone is below ['$']. *)
Lemma below_sentinel_space (B : list N) :
  Forall (λ a, a = default_end_char ∨ a ∈ ALPHABET) B →
  filter (λ a, (a < default_end_char)%N) B = filter (λ a, a = 32%N) B.
Proof.
  induction 1 as [|a B Ha _ IH]; [done|].
  rewrite !filter_cons, IH.
  assert ((a < default_end_char)%N ↔ a = 32%N) as Hiff.
  { unfold default_end_char. destruct Ha as [->|Ha].
    - unfold default_end_char. lia.
    - apply elem_of_ALPHABET in Ha. lia. }
  destruct (decide (a < default_end_char)%N), (decide (a = 32%N)); tauto.
Qed.

(** C2, amended.  In the order used by the rotation sort and by the character
    sort (code points), ['$'] precedes every digit and every ASCII letter of
    the permitted alphabet, and follows the space.  For every string that
    contains ['$'] and is made of ['$'] and permitted characters,
    [sort_string] places the sentinel right after the spaces: with [k]
    spaces in the string, the positions below [k] hold spaces and position
    [k] holds the sentinel, which is position 0 for a string without
    space. *)
Theorem C2_sentinel_precedes_digits_and_letters (c : N) (B : list N) :
  c ∈ ALPHABET → c ≠ 32%N →
  default_end_char ∈ B →
  Forall (λ a, a = default_end_char ∨ a ∈ ALPHABET) B →
  char_le default_end_char c = true
  ∧ char_le c default_end_char = false
  ∧ (∀ a b, str_le (default_end_char :: a) (c :: b) = true
            ∧ str_le (c :: b) (default_end_char :: a) = false)
  ∧ char_le 32 default_end_char = true
  ∧ char_le default_end_char 32 = false
  ∧ (∀ a b, str_le (32%N :: a) (default_end_char :: b) = true
            ∧ str_le (default_end_char :: b) (32%N :: a) = false)
  ∧ sort_string B !! occurrences 32 B = Some default_end_char
  ∧ (∀ i, i < occurrences 32 B → sort_string B !! i = Some 32%N)
  ∧ (occurrences 32 B = 0 → sort_string B !! 0 = Some default_end_char).
Proof.
  intros Hc Hsp HB Hall. apply elem_of_ALPHABET in Hc.
  assert (36 < c)%N as Hlt by lia.
  split; [apply N.leb_le; unfold default_end_char; lia|].
  split; [apply N.leb_gt; unfold default_end_char; lia|].
  split.
  { intros a b. unfold default_end_char. simpl.
    destruct (N.ltb_spec 36 c); [|lia].
    destruct (N.ltb_spec c 36); [lia|].
    destruct (N.eqb_spec c 36); [lia|done]. }
  split; [done|]. split; [done|]. split; [done|].
  assert (sort_string B !! occurrences 32 B = Some default_end_char) as Hpos.
  { unfold occurrences. rewrite <-below_sentinel_space by done.
    by apply sort_string_lookup. }
  split; [exact Hpos|]. split; [|by intros <-].
  intros i Hi. unfold occurrences in Hi. rewrite <-below_sentinel_space in Hi by done.
  destruct (sort_string_lookup_smaller B default_end_char i Hi) as (a & -> & Ha & Hin).
  f_equal. apply (proj1 (Forall_forall _ _) Hall) in Hin as [->|Hin]; [lia|].
  apply elem_of_ALPHABET in Hin. unfold default_end_char in Ha. lia.
Qed.

(** The letter ['a'] and the string ["a $ b$ "], with three spaces: they
    come at 0, 1 and 2, the first sentinel at 3. *)
Lemma C2_witness :
  char_le default_end_char (ord "a") = true
  ∧ char_le (ord "a") default_end_char = false
  ∧ sort_string (py "a $ b$ ") !! 3 = Some default_end_char
  ∧ sort_string (py "a $ b$ ") !! 0 = Some 32%N
  ∧ sort_string (py "a $ b$ ") !! 2 = Some 32%N.
Proof.
  destruct (C2_sentinel_precedes_digits_and_letters (ord "a") (py "a $ b$ "))
    as (H1 & H2 & _ & _ & _ & _ & Hpos & Hspaces & _).
  - by apply (bool_decide_unpack _); vm_compute.
  - done.
  - by apply (bool_decide_unpack _); vm_compute.
  - by apply (bool_decide_unpack _); vm_compute.
  - split; [exact H1|]. split; [exact H2|]. split; [exact Hpos|].
    split; apply Hspaces; vm_compute; lia.
Defined.

Lemma occurrences_elem (c : N) (string : list N) :
  0 < occurrences c string → c ∈ string.
Proof.
  unfold occurrences. intros Hpos.
  destruct (filter (λ a, a = c) string) as [|a l] eqn:Hf; [simpl in Hpos; lia|].
  assert (a ∈ filter (λ a, a = c) string) as Hin by (rewrite Hf; left).
  by apply list_elem_of_filter in Hin as [-> ?].
Qed.

Lemma occurrences_alphabet (c : N) (string : list N) :
  c ∉ ALPHABET → Forall (λ a, a ∈ ALPHABET) string → occurrences c string = 0.
Proof.
  intros Hc Hall. unfold occurrences.
  induction Hall as [|a l Ha _ IH]; [done|].
  rewrite filter_cons, decide_False; [done|]. by intros ->.
Qed.

Lemma symbols_single_occurrences (c : N) (string : list N) :
  symbols string = [c] → occurrences c string = 1.
Proof.
  intros Hs.
  destruct (symbols_one_split string) as (before & c' & after & -> & Hb & Ha & Hc).
  { by rewrite Hs. }
  rewrite symbols_one_symbol in Hs by done. injection Hs as ->.
  pose proof (occurrences_alphabet c before Hc Hb) as H1.
  pose proof (occurrences_alphabet c after Hc Ha) as H2.
  unfold occurrences in *.
  rewrite filter_app, filter_cons, decide_True by done.
  rewrite length_app. simpl. lia.
Qed.

(** C7, amended.  A decode input string in which ['$'] occurs zero times or
    more than once is rejected before or by the inversion, and nothing is
    decoded from it.  [validate_bwt], called with the sentinel ['$'] as its
    callers do, returns one of its two messages or, for a string with ['$']
    absent and one other character outside the alphabet, the string with
    that character replaced by ['$']; with ['$'] more than once it returns
    the message of several symbols.  What it returns differs from the string,
    which is what the callers test before they invert, but for a string that
    is itself the message of several symbols of its line, on which
    [invert_bwt_via_map] raises [ValueError].  So the string block of [main]
    prints what [validate_bwt] returned and the help, and the loop of
    [decode_file_as_word_list] yields the empty string. *)
Theorem C7_sentinel_count_rejected
    (authenticate : list N → list N → N → result bool)
    (string : list N) (line_no : option Z) :
  occurrences default_end_char string ≠ 1 →
  (validate_bwt string line_no default_end_char = msg_no_symbols line_no
   ∨ validate_bwt string line_no default_end_char = msg_many_symbols line_no
   ∨ ∃ before c after,
       string = before ++ c :: after ∧ c ≠ default_end_char
       ∧ validate_bwt string line_no default_end_char
         = before ++ default_end_char :: after)
  ∧ (1 < occurrences default_end_char string →
     validate_bwt string line_no default_end_char = msg_many_symbols line_no)
  ∧ (validate_bwt string line_no default_end_char ≠ string
     ∨ (∃ z, line_no = Some z ∧ z ≠ 0%Z ∧ string = msg_many_symbols (Some z))
       ∧ ∀ end_char, invert_bwt_via_map string end_char = Raise ValueError)
  ∧ (1 < occurrences default_end_char string →
     validate_bwt string line_no default_end_char ≠ string)
  ∧ (string ≠ [] →
     decode_string authenticate (Some string)
     = [PrintStr (validate_bwt string None default_end_char); PrintHelp])
  ∧ (∀ raw counter end_char,
       strip_newline raw = string →
       (decode_line authenticate raw counter end_char).1 = []).
Proof.
  intros Hocc.
  assert (symbols string ≠ [default_end_char]) as Hs.
  { by intros ?%symbols_single_occurrences. }
  assert (1 < occurrences default_end_char string →
          validate_bwt string line_no default_end_char = msg_many_symbols line_no)
    as Hmany.
  { intros Hgt. apply validate_bwt_many_symbols.
    pose proof (occurrences_le_symbols _ string sentinel_not_in_ALPHABET). lia. }
  split; [|split; [exact Hmany|split; [|split; [|split]]]].
  - assert (length (symbols string) = 0 ∨ length (symbols string) = 1
            ∨ 1 < length (symbols string)) as [H0|[H1|H2]] by lia.
    + left. by apply validate_bwt_no_symbols.
    + right. right.
      destruct (symbols_one_split string H1) as (before & c & after & -> & Hb & Ha & Hc).
      exists before, c, after. split; [done|]. split.
      * intros ->. apply Hs. by apply symbols_one_symbol.
      * by apply validate_bwt_one_symbol.
    + right. left. by apply validate_bwt_many_symbols.
  - destruct (decide (validate_bwt string line_no default_end_char = string))
      as [Heq|Hne]; [|by left]. right.
    apply validate_bwt_unchanged in Heq as [?|(z & -> & Hz & ->)]; [done|].
    split; [by exists z|]. intros end_char.
    apply invert_without_default_sentinel, msg_many_symbols_no_dollar.
  - intros Hgt Heq. rewrite (Hmany Hgt) in Heq.
    assert (default_end_char ∈ string) as Hin by (apply occurrences_elem; lia).
    rewrite <-Heq in Hin. by apply msg_many_symbols_no_dollar in Hin.
  - intros Hne. destruct string as [|c0 string]; [done|].
    unfold decode_string. rewrite decide_True; [done|].
    intros [?|(z & [=] & _)]%validate_bwt_unchanged. done.
  - intros raw counter end_char Hraw. unfold decode_line. rewrite Hraw.
    destruct (decide (validate_bwt string (Some (Z.of_nat counter)) default_end_char
                      = string)) as [Heq|Hne]; [|done].
    rewrite Heq. apply validate_bwt_unchanged in Heq as [?|(z & _ & _ & ->)]; [done|].
    rewrite invert_without_default_sentinel by apply msg_many_symbols_no_dollar.
    done.
Qed.

(** The doctest string ["a$bab$s"], with two sentinels, on line 10. *)
Lemma C7_witness :
  validate_bwt (py "a$bab$s") (Some 10%Z) default_end_char
  = msg_many_symbols (Some 10%Z)
  ∧ validate_bwt (py "a$bab$s") (Some 10%Z) default_end_char ≠ py "a$bab$s"
  ∧ decode_string (λ _ _ _, Return true) (Some (py "a$bab$s"))
    = [PrintStr (validate_bwt (py "a$bab$s") None default_end_char); PrintHelp]
  ∧ (decode_line (λ _ _ _, Return true) (py "a$bab$s" ++ [10%N]) 10 default_end_char).1
    = [].
Proof.
  destruct (C7_sentinel_count_rejected (λ _ _ _, Return true)
              (py "a$bab$s") (Some 10%Z))
    as (_ & Hmany & _ & Hne & Hmain & Hloop).
  - by vm_compute.
  - split; [apply Hmany; vm_compute; lia|].
    split; [apply Hne; vm_compute; lia|].
    split; [by apply Hmain|].
    apply Hloop. vm_compute. reflexivity.
Defined.
